(** * pg-basic: the execution engine of a line-numbered BASIC interpreter

    A shallow embedding of [src/basic.js] (class [Basic] and class
    [BasicArray]) and the properties of its run loop, control-flow stack,
    loop registry and variable environment.

    Modelling conventions.
    - JavaScript numbers are modelled as integers ([Z]); the engine only adds
      and compares them, which is exact on integers of magnitude below 2^53.
      There is no [NaN].
    - The objects used as dictionaries ([variables], [loops], [constants],
      [seen], a [BasicArray]) are finite maps over their own properties;
      names inherited from [Object.prototype] are not looked at.
    - A [BasicArray] is modelled by its cells.  Two variables that hold the
      same array object are outside the model; no property below passes an
      array from one variable to another.
    - The engine is one mutable object; its methods are computations in a
      state-and-exception monad over the record [Basic].
    - [debug] only writes to the host console when [debugLevel] allows it and
      has no effect on the engine; it is left out.  So are [evaluate], [fun]
      and the display methods, which only hand over to the evaluator, the
      function table and the display.
    - The [while (true)] loop of [execute] is given fuel: one unit per
      iteration.  [setTimeout] is the exit [Scheduled]; [resume] plays the
      timer. *)

From Stdlib Require Import ZArith String Ascii List Lia.
From stdpp Require Import base option list gmap strings pretty.
From stdpp Require Import sorting.

Local Open Scope Z_scope.
Local Open Scope string_scope.

(** ** Values *)

(** The values a BASIC variable or an array cell can hold. *)
Inductive scalar :=
| SUndefined
| SNull
| SBool (b : bool)
| SNum (n : Z)
| SStr (s : string).

(** [BasicArray]: an object whose own properties are the cells. *)
Inductive value :=
| VScalar (x : scalar)
| VArray (cells : gmap string scalar).

Definition VNum (n : Z) : value := VScalar (SNum n).
Definition VStr (s : string) : value := VScalar (SStr s).
Definition VBool (b : bool) : value := VScalar (SBool b).

(** JavaScript truthiness, as tested by [||] and [if]. *)
Definition truthy (v : value) : bool :=
  match v with
  | VScalar SUndefined => false
  | VScalar SNull => false
  | VScalar (SBool b) => b
  | VScalar (SNum n) => negb (Z.eqb n 0)
  | VScalar (SStr s) => negb (String.eqb s "")
  | VArray _ => true
  end.

(** [String(x)], which is also how a subscript becomes a property key. *)
Definition toString (x : scalar) : string :=
  match x with
  | SUndefined => "undefined"
  | SNull => "null"
  | SBool true => "true"
  | SBool false => "false"
  | SNum n => pretty n
  | SStr s => s
  end.

(** ** Errors and the completion signal *)

Inductive error :=
| ParseError (lineno : Z) (message : string)
| RuntimeError (lineno : Z) (message : string)
| TypeError (message : string).

(** The state of the promise returned by [run]: [None] while pending. *)
Inductive settlement :=
| Resolved
| Rejected (e : error).

(** [resolve] and [reject] only act on a pending promise. *)
Definition settle (o : settlement) (p : option settlement) : option settlement :=
  match p with
  | None => Some o
  | Some _ => p
  end.

(** ** Statements *)

(** The engine operations a statement's [run(engine)] may call. *)
Inductive call :=
| CSet (vari : string) (v : value)
| CSetArray (vari : string) (sub : scalar) (v : scalar)
| CArray (name : string)
| CPause (millis : Z)
| CGoto (lineno : Z)
| CLoopStart (variable : string) (value increment max : Z)
| CLoopJump (name : string)
| CGosub (lineno : Z)
| CReturn
| CPrint (s : scalar)
| CHalt
| CEnd (err : option error).

(** The operations whose result the statement goes on to use. *)
Inductive query :=
| QGet (vari : string)
| QGetConst (constant : string).

(** Modelled from the spec: the statement nodes are built by the parser
    ([./parser]), which is not part of the engine.  By the statement contract
    a node carries a line number and a [run(engine)] operation that calls
    back into the engine and may throw; a [script] is the tree of those
    calls, branching on what the engine returns. *)
Inductive script :=
| Ret
| Throw (e : error)
| Do (c : call) (k : script)
| Ask (q : query) (k : value -> script).

Record Node := mkNode {
  node_lineno : Z;
  node_run : script;
}.

(** What [Parser.parseLine] does on one line: a node, or a thrown error. *)
Inductive parsed :=
| Parsed (n : Node)
| Failed (e : error).

(** ** The engine state *)

Record Loop := mkLoop {
  loop_variable : string;
  loop_value : Z;
  loop_increment : Z;
  loop_max : Z;
  loop_lineno : Z;
}.

Record Basic := mkBasic {
  constants : gmap string value;
  variables : gmap string value;
  lineno : Z;
  program : list Node;
  loops : gmap string Loop;
  stack : list Z;
  jumped : bool;
  delay : option Z;
  halted : bool;
  ended : bool;
  onEnd : option settlement;
  (** what [console.write] has received *)
  console : list string;
  (** the line numbers of the statements whose [run] was invoked, in order *)
  trace : list Z;
}.

(** The engine as the constructor leaves it, with a promise from a first
    [run] not yet created. *)
Definition new_Basic (consts : gmap string value) : Basic :=
  {| constants := consts; variables := ∅; lineno := -1; program := [];
     loops := ∅; stack := []; jumped := false; delay := None;
     halted := false; ended := false; onEnd := None;
     console := []; trace := [] |}.

Definition with_variables (f : gmap string value -> gmap string value) (s : Basic) : Basic :=
  {| constants := constants s; variables := f (variables s); lineno := lineno s;
     program := program s; loops := loops s; stack := stack s;
     jumped := jumped s; delay := delay s; halted := halted s;
     ended := ended s; onEnd := onEnd s; console := console s; trace := trace s |}.

Definition with_lineno (l : Z) (s : Basic) : Basic :=
  {| constants := constants s; variables := variables s; lineno := l;
     program := program s; loops := loops s; stack := stack s;
     jumped := jumped s; delay := delay s; halted := halted s;
     ended := ended s; onEnd := onEnd s; console := console s; trace := trace s |}.

Definition with_program (p : list Node) (s : Basic) : Basic :=
  {| constants := constants s; variables := variables s; lineno := lineno s;
     program := p; loops := loops s; stack := stack s;
     jumped := jumped s; delay := delay s; halted := halted s;
     ended := ended s; onEnd := onEnd s; console := console s; trace := trace s |}.

Definition with_loops (f : gmap string Loop -> gmap string Loop) (s : Basic) : Basic :=
  {| constants := constants s; variables := variables s; lineno := lineno s;
     program := program s; loops := f (loops s); stack := stack s;
     jumped := jumped s; delay := delay s; halted := halted s;
     ended := ended s; onEnd := onEnd s; console := console s; trace := trace s |}.

Definition with_stack (st : list Z) (s : Basic) : Basic :=
  {| constants := constants s; variables := variables s; lineno := lineno s;
     program := program s; loops := loops s; stack := st;
     jumped := jumped s; delay := delay s; halted := halted s;
     ended := ended s; onEnd := onEnd s; console := console s; trace := trace s |}.

Definition with_jumped (j : bool) (s : Basic) : Basic :=
  {| constants := constants s; variables := variables s; lineno := lineno s;
     program := program s; loops := loops s; stack := stack s;
     jumped := j; delay := delay s; halted := halted s;
     ended := ended s; onEnd := onEnd s; console := console s; trace := trace s |}.

Definition with_delay (d : option Z) (s : Basic) : Basic :=
  {| constants := constants s; variables := variables s; lineno := lineno s;
     program := program s; loops := loops s; stack := stack s;
     jumped := jumped s; delay := d; halted := halted s;
     ended := ended s; onEnd := onEnd s; console := console s; trace := trace s |}.

Definition with_halted (h : bool) (s : Basic) : Basic :=
  {| constants := constants s; variables := variables s; lineno := lineno s;
     program := program s; loops := loops s; stack := stack s;
     jumped := jumped s; delay := delay s; halted := h;
     ended := ended s; onEnd := onEnd s; console := console s; trace := trace s |}.

Definition with_ended (e : bool) (s : Basic) : Basic :=
  {| constants := constants s; variables := variables s; lineno := lineno s;
     program := program s; loops := loops s; stack := stack s;
     jumped := jumped s; delay := delay s; halted := halted s;
     ended := e; onEnd := onEnd s; console := console s; trace := trace s |}.

Definition with_onEnd (o : option settlement) (s : Basic) : Basic :=
  {| constants := constants s; variables := variables s; lineno := lineno s;
     program := program s; loops := loops s; stack := stack s;
     jumped := jumped s; delay := delay s; halted := halted s;
     ended := ended s; onEnd := o; console := console s; trace := trace s |}.

Definition with_console (c : list string) (s : Basic) : Basic :=
  {| constants := constants s; variables := variables s; lineno := lineno s;
     program := program s; loops := loops s; stack := stack s;
     jumped := jumped s; delay := delay s; halted := halted s;
     ended := ended s; onEnd := onEnd s; console := c; trace := trace s |}.

Definition with_trace (t : list Z) (s : Basic) : Basic :=
  {| constants := constants s; variables := variables s; lineno := lineno s;
     program := program s; loops := loops s; stack := stack s;
     jumped := jumped s; delay := delay s; halted := halted s;
     ended := ended s; onEnd := onEnd s; console := console s; trace := t |}.

(** ** The monad of engine methods *)

(** A method either returns normally or throws, and has then changed the
    engine either way. *)
Inductive completion (A : Type) :=
| Normal (a : A) (s : Basic)
| Thrown (e : error) (s : Basic).
Arguments Normal {A} a s.
Arguments Thrown {A} e s.

Definition M (A : Type) : Type := Basic -> completion A.

#[global] Instance M_ret : MRet M := fun A a s => Normal a s.
#[global] Instance M_bind : MBind M := fun A B f m s =>
  match m s with
  | Normal a s' => f a s'
  | Thrown e s' => Thrown e s'
  end.

Definition throw {A : Type} (e : error) : M A := fun s => Thrown e s.
Definition gets {A : Type} (f : Basic -> A) : M A := fun s => Normal (f s) s.
Definition modify (f : Basic -> Basic) : M unit := fun s => Normal tt (f s).

(** [try { m } catch (e) { h(e) }] *)
Definition try_catch (m : M unit) (h : error -> M unit) : M unit := fun s =>
  match m s with
  | Normal a s' => Normal a s'
  | Thrown e s' => h e s'
  end.

(** The engine after a method has completed, normally or not. *)
Definition state_of {A : Type} (c : completion A) : Basic :=
  match c with
  | Normal _ s => s
  | Thrown _ s => s
  end.

(** ** Termination protocol *)

(** [end(error)]: marks the run ended and settles the promise, rejecting
    with [error] when there is one and resolving otherwise. *)
Definition end_ (err : option error) : M unit :=
  modify (fun s =>
    with_onEnd (settle (match err with
                        | Some e => Rejected e
                        | None => Resolved
                        end) (onEnd s))
               (with_ended true s)).

(** ** Variable environment *)

(** [set(vari, value)] *)
Definition set (vari : string) (v : value) : M unit :=
  modify (with_variables (<[vari := v]>)).

(** What [this.variables[vari] || 0] evaluates to. *)
Definition or_zero (o : option value) : value :=
  match o with
  | Some v => if truthy v then v else VNum 0
  | None => VNum 0
  end.

(** [get(vari)] *)
Definition get (vari : string) : M value :=
  gets (fun s => or_zero (variables s !! vari)).

(** [array(name)] *)
Definition array (name : string) : M unit :=
  modify (with_variables (<[name := VArray ∅]>)).

(** [setArray(vari, sub, value)]: the subscript is used as a property key. *)
Definition setArray (vari : string) (sub : scalar) (v : scalar) : M unit :=
  cur ← gets (fun s => variables s !! vari);
  match cur with
  | Some (VArray cells) =>
      modify (with_variables (<[vari := VArray (<[toString sub := v]> cells)]>))
  | _ =>
      l ← gets lineno;
      end_ (Some (RuntimeError l (vari ++ " is not an array, did you call ARRAY?")))
  end.

(** Reading a cell, [get(name)[sub]], as an expression does it: [None] is
    JavaScript's [undefined]. *)
Definition cell (v : value) (sub : scalar) : option scalar :=
  match v with
  | VArray cells => cells !! toString sub
  | VScalar _ => None
  end.

(** [getConst(constant)]: an unknown constant ends the run and the method
    returns [undefined]. *)
Definition getConst (constant : string) : M value :=
  c ← gets (fun s => constants s !! constant);
  match c with
  | Some v => mret v
  | None =>
      l ← gets lineno;
      end_ (Some (RuntimeError l ("Constant " ++ constant ++ " is undefined")));;
      mret (VScalar SUndefined)
  end.

(** ** Program store *)

(** [getCurLine()]: the first node carrying the cursor's line number. *)
Definition getCurLine (s : Basic) : option Node :=
  List.find (fun n => Z.eqb (node_lineno n) (lineno s)) (program s).

(** The position at which [find] stops. *)
Fixpoint indexOfLine (l : Z) (p : list Node) : option nat :=
  match p with
  | [] => None
  | n :: p' => if Z.eqb (node_lineno n) l then Some O else S <$> indexOfLine l p'
  end.

(** [getNextLine()] is [program[program.indexOf(getCurLine()) + 1]].  Every
    parsed node is an object of its own, so [indexOf] finds the node that
    [getCurLine] returned at the position where [find] stopped; when there
    is no current line, [indexOf(undefined)] is -1 and the result is
    [program[0]]. *)
Definition getNextLine (s : Basic) : option Node :=
  match indexOfLine (lineno s) (program s) with
  | Some i => program s !! S i
  | None => program s !! O
  end.

(** ** Control flow *)

(** [pause(millis)] *)
Definition pause (millis : Z) : M unit :=
  modify (with_delay (Some millis)).

(** [goto(lineno)] *)
Definition goto (l : Z) : M unit :=
  modify (fun s => with_jumped true (with_lineno l s)).

(** [loopStart({ variable, value, increment, max })] *)
Definition loopStart (variable : string) (value increment max : Z) : M unit :=
  set variable (VNum value);;
  next ← gets getNextLine;
  match next with
  | None => end_ None
  | Some n =>
      modify (with_loops (<[variable :=
        {| loop_variable := variable; loop_value := value;
           loop_increment := increment; loop_max := max;
           loop_lineno := node_lineno n |}]>))
  end.

(** [loopJump(name)]: reading [loop.value] of a missing descriptor throws
    before anything is changed. *)
Definition loopJump (name : string) : M unit :=
  found ← gets (fun s => loops s !! name);
  match found with
  | None => throw (TypeError "Cannot read properties of undefined (reading 'value')")
  | Some loop =>
      let v := loop_value loop + loop_increment loop in
      modify (with_loops (<[name :=
        {| loop_variable := loop_variable loop; loop_value := v;
           loop_increment := loop_increment loop; loop_max := loop_max loop;
           loop_lineno := loop_lineno loop |}]>));;
      set (loop_variable loop) (VNum v);;
      if Z.leb (loop_max loop) v then mret tt else goto (loop_lineno loop)
  end.

(** [gosub(lineno)]: [stack.push] appends. *)
Definition gosub (l : Z) : M unit :=
  next ← gets getNextLine;
  match next with
  | Some n => modify (fun s => with_stack (stack s ++ [node_lineno n]) s)
  | None => modify (fun s => with_stack (stack s ++ [lineno s + 1]) s)
  end;;
  goto l.

(** [return()]: [stack.pop] takes the last element. *)
Definition return_ : M unit :=
  st ← gets stack;
  match last st with
  | None =>
      l ← gets lineno;
      end_ (Some (RuntimeError l "There are no function calls to return from 🤷"))
  | Some l =>
      modify (with_stack (removelast st));;
      goto l
  end.

(** [halt()] *)
Definition halt : M unit :=
  modify (with_halted true).

(** ** Console *)

(** [print(s)]: [s.toString()] throws on [undefined] and [null]. *)
Definition print (x : scalar) : M unit :=
  match x with
  | SUndefined =>
      throw (TypeError "Cannot read properties of undefined (reading 'toString')")
  | SNull =>
      throw (TypeError "Cannot read properties of null (reading 'toString')")
  | _ => modify (fun s => with_console (console s ++ [toString x]) s)
  end.

(** ** Running a statement *)

Definition perform (c : call) : M unit :=
  match c with
  | CSet vari v => set vari v
  | CSetArray vari sub v => setArray vari sub v
  | CArray name => array name
  | CPause millis => pause millis
  | CGoto l => goto l
  | CLoopStart variable value increment max => loopStart variable value increment max
  | CLoopJump name => loopJump name
  | CGosub l => gosub l
  | CReturn => return_
  | CPrint x => print x
  | CHalt => halt
  | CEnd err => end_ err
  end.

Definition answer (q : query) : M value :=
  match q with
  | QGet vari => get vari
  | QGetConst constant => getConst constant
  end.

(** [node.run(this)] *)
Fixpoint runScript (k : script) : M unit :=
  match k with
  | Ret => mret tt
  | Throw e => throw e
  | Do c k' => perform c;; runScript k'
  | Ask q k' => v ← answer q; runScript (k' v)
  end.

(** The engine as [node.run(this)] finds it; the statement is recorded as
    run. *)
Definition enter (node : Node) (s : Basic) : Basic :=
  with_trace (trace s ++ [node_lineno node]) s.

(** [step()]: a missing line ends the run; otherwise the statement runs and
    whatever it throws ends the run. *)
Definition step (s : Basic) : Basic :=
  match getCurLine s with
  | None =>
      state_of (end_ (Some (RuntimeError (lineno s)
        ("Cannot find line " ++ pretty (lineno s) ++ " 🤦‍♂️"))) s)
  | Some node =>
      state_of (try_catch (runScript (node_run node))
                          (fun e => end_ (Some e))
                          (enter node s))
  end.

(** How a call of [execute] returned: plainly, after [setTimeout] has
    scheduled its next call, or not within the fuel. *)
Inductive exit :=
| Returned
| Scheduled (millis : Z)
| OutOfFuel.

(** [if (this.delay)]: a pending pause of a non-zero length. *)
Definition pending_delay (s : Basic) : option Z :=
  match delay s with
  | Some d => if Z.eqb d 0 then None else Some d
  | None => None
  end.

(** What [execute] does to the cursor after a step: a jump that the
    statement made is consumed, otherwise the cursor moves to the next line
    of the program; [None] when there is no next line. *)
Definition advance (s : Basic) : option Basic :=
  if jumped s then Some (with_jumped false s)
  else match getNextLine s with
       | None => None
       | Some next => Some (with_lineno (node_lineno next) s)
       end.

(** The [while (true)] of [execute]. *)
Fixpoint execute_loop (fuel : nat) (s : Basic) : exit * Basic :=
  match fuel with
  | O => (OutOfFuel, s)
  | S fuel' =>
      let s1 := step s in
      if ended s1 then (Returned, s1)
      else
        match advance s1 with
        | None => (Returned, state_of (end_ None s1))
        | Some s2 =>
            match pending_delay s2 with
            | Some d => (Scheduled d, with_delay None s2)
            | None => if halted s2 then (Returned, s2) else execute_loop fuel' s2
            end
        end
  end.

(** [execute()] *)
Definition execute (fuel : nat) (s : Basic) : exit * Basic :=
  execute_loop fuel (with_halted false s).

(** The host's timer queue: each time [execute] has scheduled itself, the
    timer fires and calls it again, at most [timers] times. *)
Fixpoint resume (timers fuel : nat) (r : exit * Basic) : exit * Basic :=
  match r, timers with
  | (Scheduled _, s), S timers' => resume timers' fuel (execute fuel s)
  | _, _ => r
  end.

(** ** Loading and running a program *)

Definition newline : ascii := Ascii.ascii_of_nat 10.

(** [program.split('\n')] *)
Fixpoint split_lines (text : string) : list string :=
  match text with
  | EmptyString => [EmptyString]
  | String c text' =>
      if Ascii.eqb c newline then EmptyString :: split_lines text'
      else match split_lines text' with
           | l :: ls => String c l :: ls
           | [] => [String c EmptyString]
           end
  end.

(** The white space and line terminators that [trim] removes from an ASCII
    text. *)
Definition is_space (c : ascii) : bool :=
  let n := Ascii.nat_of_ascii c in
  existsb (Nat.eqb n) [9; 10; 11; 12; 13; 32]%nat.

(** [l.trim() !== ''] *)
Fixpoint not_blank (l : string) : bool :=
  match l with
  | EmptyString => false
  | String c l' => if is_space c then not_blank l' else true
  end.

(** One step of the stable sort: [n] goes before the first node with a
    line number that is not smaller. *)
Fixpoint insert_node (n : Node) (p : list Node) : list Node :=
  match p with
  | [] => [n]
  | m :: p' =>
      if Z.leb (node_lineno n) (node_lineno m) then n :: m :: p'
      else m :: insert_node n p'
  end.

(** [.sort((a, b) => a.lineno - b.lineno)]: the sort is stable, and this is
    the one stable arrangement by line number. *)
Fixpoint sort_nodes (p : list Node) : list Node :=
  match p with
  | [] => []
  | n :: p' => insert_node n (sort_nodes p')
  end.

(** The [map] over the lines: a line that does not parse ends the run and
    leaves [undefined] in the array; the nodes of the others are kept. *)
Fixpoint parse_all (ps : list parsed) (s : Basic) : list Node * Basic :=
  match ps with
  | [] => ([], s)
  | Parsed n :: ps' => let (ns, s') := parse_all ps' s in (n :: ns, s')
  | Failed e :: ps' => parse_all ps' (state_of (end_ (Some e) s))
  end.

(** The [forEach] that looks for a repeated line number.  The [return] in
    its callback leaves the callback only, so the later nodes are visited
    too. *)
Fixpoint check_repeated (p : list Node) (seen : gset Z) (s : Basic) : Basic :=
  match p with
  | [] => s
  | n :: p' =>
      let l := node_lineno n in
      if bool_decide (l ∈ seen) then
        check_repeated p' seen
          (state_of (end_ (Some (ParseError l
             ("Line with number " ++ pretty l ++ " repeated"))) s))
      else check_repeated p' ({[l]} ∪ seen) s
  end.

(** [run(program)], from the parsed lines on.  A new promise is created and
    [ended] is cleared.  When a line failed to parse, the [undefined]
    entries are sorted behind the nodes and [run] returns before anything
    reads them, so [program] keeps the nodes only. *)
Definition run_parsed (fuel : nat) (ps : list parsed) (s : Basic) : exit * Basic :=
  let s0 := with_ended false (with_onEnd None s) in
  let (nodes, s1) := parse_all ps s0 in
  let s2 := with_program (sort_nodes nodes) s1 in
  if ended s2 then (Returned, s2)
  else
    let s3 := check_repeated (program s2) ∅ s2 in
    match program s3 with
    | [] => (Returned, state_of (end_ None s3))
    | first :: _ => execute fuel (with_lineno (node_lineno first) s3)
    end.

(** [run(program)] for a given parser. *)
Definition run (parseLine : string -> parsed) (fuel : nat) (text : string)
    (s : Basic) : exit * Basic :=
  run_parsed fuel (List.map parseLine (List.filter not_blank (split_lines text))) s.

(** ** Predicates on programs and statements *)

(** Strictly increasing line numbers, checked on neighbours. *)
Fixpoint increasing (ls : list Z) : bool :=
  match ls with
  | [] => true
  | l :: ls' =>
      match ls' with
      | [] => true
      | l' :: _ => Z.ltb l l' && increasing ls'
      end
  end.

(** The invariant of a loaded program: sorted by line number, no line
    number twice. *)
Definition ascending (p : list Node) : Prop :=
  increasing (node_lineno <$> p) = true.

(** [reaches k s c t]: the statement [k], run from the engine state [s],
    comes to call [c], and the engine is in state [t] at that call. *)
Inductive reaches : script -> Basic -> call -> Basic -> Prop :=
| reaches_here c k s :
    reaches (Do c k) s c s
| reaches_do c0 k s s' c t :
    perform c0 s = Normal tt s' ->
    reaches k s' c t ->
    reaches (Do c0 k) s c t
| reaches_ask q k s v s' c t :
    answer q s = Normal v s' ->
    reaches (k v) s' c t ->
    reaches (Ask q k) s c t.

(** The calls that transfer control: each of them may end in [goto]. *)
Definition is_jump (c : call) : bool :=
  match c with
  | CGoto _ | CLoopJump _ | CGosub _ | CReturn => true
  | _ => false
  end.

(** A statement none of whose paths makes a jump. *)
Inductive jump_free : script -> Prop :=
| jump_free_ret : jump_free Ret
| jump_free_throw e : jump_free (Throw e)
| jump_free_do c k : is_jump c = false -> jump_free k -> jump_free (Do c k)
| jump_free_ask q k : (forall v, jump_free (k v)) -> jump_free (Ask q k).

(** The promise is pending as long as the run has not ended. *)
Definition pending (s : Basic) : Prop :=
  ended s = false -> onEnd s = None.

(** What the calls of a statement leave alone, or move one way only: the
    program and the record of statements run are not touched, an ended run
    stays ended, a settled promise keeps its value, a requested halt stays
    requested, and the cursor only moves together with [jumped]. *)
Record keeps (s s' : Basic) : Prop := mkKeeps {
  keeps_program : program s' = program s;
  keeps_trace : trace s' = trace s;
  keeps_ended : ended s = true -> ended s' = true;
  keeps_onEnd : forall o, onEnd s = Some o -> onEnd s' = Some o;
  keeps_halted : halted s = true -> halted s' = true;
  keeps_pending : pending s -> pending s';
  keeps_cursor : jumped s' = false -> jumped s = false /\ lineno s' = lineno s;
}.

(** The engine after a statement has run inside the [try] of [step]. *)
Definition caught (k : script) (s : Basic) : Basic :=
  state_of (try_catch (runScript k) (fun e => end_ (Some e)) s).

(** [calls s c t]: the statement at the cursor of [s], as [execute] runs it,
    comes to call [c] with the engine in state [t]. *)
Definition calls (s : Basic) (c : call) (t : Basic) : Prop :=
  exists node, getCurLine s = Some node
    /\ reaches (node_run node) (enter node (with_halted false s)) c t.

(** The engine after [n] calls of [loopJump(name)] in a row. *)
Fixpoint loopJumps (n : nat) (name : string) (s : Basic) : Basic :=
  match n with
  | O => s
  | S n' => state_of (loopJump name (loopJumps n' name s))
  end.

(** The engine between two statements of a run without jumps: the cursor is
    on line [i] of the program and the lines before it have been run, in
    order, since the trace was [t0]. *)
Definition in_order (p : list Node) (t0 : list Z) (s : Basic) : Prop :=
  program s = p /\ jumped s = false
  /\ exists i n, p !! i = Some n /\ lineno s = node_lineno n
       /\ trace s = (t0 ++ take i (node_lineno <$> p))%list.

(** The statements run since [t0] are the first lines of the program. *)
Definition ran_in_order (p : list Node) (t0 : list Z) (s : Basic) : Prop :=
  exists k, trace s = (t0 ++ take k (node_lineno <$> p))%list.

(** ** Example programs *)

(** A statement that prints a scalar variable. *)
Definition print_variable (vari : string) : script :=
  Ask (QGet vari) (fun v =>
    match v with
    | VScalar x => Do (CPrint x) Ret
    | VArray _ => Ret
    end).

(** Line 10 starts a loop on [I] from 0 by 1 up to 3, line 20 prints [I],
    line 30 is the loop's jump and line 40 prints a last word. *)
Definition counting_loop : list parsed :=
  [ Parsed (mkNode 10 (Do (CLoopStart "I" 0 1 3) Ret));
    Parsed (mkNode 20 (print_variable "I"));
    Parsed (mkNode 30 (Do (CLoopJump "I") Ret));
    Parsed (mkNode 40 (Do (CPrint (SStr "done")) Ret)) ].

(** Line 10 halts, line 20 prints. *)
Definition halting_program : list parsed :=
  [ Parsed (mkNode 10 (Do CHalt Ret));
    Parsed (mkNode 20 (Do (CPrint (SStr "B")) Ret)) ].

(** Line 10 asks for a pause of 5 ms and halts, line 20 prints. *)
Definition pause_and_halt_program : list parsed :=
  [ Parsed (mkNode 10 (Do (CPause 5) (Do CHalt Ret)));
    Parsed (mkNode 20 (Do (CPrint (SStr "B")) Ret)) ].

(** Three statements without jumps, given out of order and with gaps
    between the line numbers. *)
Definition sparse_lines : list Node :=
  [ mkNode 30 (Do (CPrint (SStr "c")) Ret);
    mkNode 10 (Do (CSet "X" (VNum 1)) Ret);
    mkNode 25 (print_variable "X") ].

(** Two statements that both carry the line number 10. *)
Definition repeated_line_program : list parsed :=
  [ Parsed (mkNode 10 (Do (CPrint (SStr "A")) Ret));
    Parsed (mkNode 10 (Do (CPrint (SStr "B")) Ret)) ].

(** Line 10 calls the subroutine on line 30, line 20 ends the program and
    line 30 returns. *)
Definition subroutine_program : list parsed :=
  [ Parsed (mkNode 10 (Do (CGosub 30) Ret));
    Parsed (mkNode 20 (Do (CEnd None) Ret));
    Parsed (mkNode 30 (Do CReturn Ret)) ].

(** ** Predicates on a whole execution *)

(** A run that has ended has settled its promise. *)
Definition settled (s : Basic) : Prop :=
  ended s = true -> is_Some (onEnd s).

(** What running statements, whole calls of [execute] and timer resumptions
    do not undo: the program and the constants stay, the console and the
    record of statements run only grow, an ended run stays ended and a
    settled promise keeps its value. *)
Record runs_on (s s' : Basic) : Prop := mkRunsOn {
  runs_on_program : program s' = program s;
  runs_on_constants : constants s' = constants s;
  runs_on_console : console s `prefix_of` console s';
  runs_on_trace : trace s `prefix_of` trace s';
  runs_on_ended : ended s = true -> ended s' = true;
  runs_on_onEnd : forall o, onEnd s = Some o -> onEnd s' = Some o;
  runs_on_pending : pending s -> pending s';
  runs_on_settled : settled s -> settled s';
}.

(** [n] calls of [return()] in a row: the cursors they set, in order, and
    the engine after the last one. *)
Fixpoint unwind (n : nat) (s : Basic) : list Z * Basic :=
  match n with
  | O => ([], s)
  | S n' =>
      let s' := state_of (return_ s) in
      let (ls, s'') := unwind n' s' in
      (lineno s' :: ls, s'')
  end.

(** [asks k s q t]: the statement [k], run from the engine state [s], comes
    to ask [q], and the engine is in state [t] then. *)
Inductive asks : script -> Basic -> query -> Basic -> Prop :=
| asks_here q k s :
    asks (Ask q k) s q s
| asks_do c0 k s s' q t :
    perform c0 s = Normal tt s' ->
    asks k s' q t ->
    asks (Do c0 k) s q t
| asks_ask q0 k s v s' q t :
    answer q0 s = Normal v s' ->
    asks (k v) s' q t ->
    asks (Ask q0 k) s q t.

(** The statement at the cursor of [s], as [execute] runs it, comes to ask
    [q] with the engine in state [t]. *)
Definition queries (s : Basic) (q : query) (t : Basic) : Prop :=
  exists node, getCurLine s = Some node
    /\ asks (node_run node) (enter node (with_halted false s)) q t.

(** A statement that only assigns, declares arrays, reads variables and
    prints text, numbers and truth values. *)
Inductive plain : script -> Prop :=
| plain_ret : plain Ret
| plain_set vari v k : plain k -> plain (Do (CSet vari v) k)
| plain_array name k : plain k -> plain (Do (CArray name) k)
| plain_print x k :
    x <> SUndefined -> x <> SNull -> plain k -> plain (Do (CPrint x) k)
| plain_get vari k : (forall v, plain (k v)) -> plain (Ask (QGet vari) k).

(** ** The display *)

(** The display that the engine was constructed with, as far as the engine
    looks at what it returns: the colour of a pixel and the pressed key.
    What the display draws is its own business. *)
Record Display := mkDisplay {
  display_color : Z -> Z -> value;
  display_getChar : value;
}.

(** [assertDisplay()] *)
Definition assertDisplay (display : option Display) : M unit :=
  match display with
  | None => l ← gets lineno; end_ (Some (RuntimeError l "No display found"))
  | Some _ => mret tt
  end.

(** A method call on [this.display]: on a missing display the property
    access throws. *)
Definition on_display {A : Type} (display : option Display) (method : string)
    (f : Display -> A) : M A :=
  match display with
  | None =>
      throw (TypeError ("Cannot read properties of undefined (reading '"
                        ++ method ++ "')"))
  | Some d => mret (f d)
  end.

(** [plot(x, y, color)] *)
Definition plot (display : option Display) (x y : Z) (color : value) : M unit :=
  assertDisplay display;; on_display display "plot" (fun _ => tt).

(** [color(x, y)] *)
Definition color (display : option Display) (x y : Z) : M value :=
  assertDisplay display;; on_display display "color" (fun d => display_color d x y).

(** [clearGraphics()] *)
Definition clearGraphics (display : option Display) : M unit :=
  assertDisplay display;; on_display display "clear" (fun _ => tt).

(** [getChar()]: [this.display.getChar() || ''] *)
Definition getChar (display : option Display) : M value :=
  assertDisplay display;;
  on_display display "getChar" (fun d =>
    if truthy (display_getChar d) then display_getChar d else VStr "").

(** Three plain statements, given out of order: line 10 assigns [X],
    line 20 copies it to [Y] and line 30 prints. *)
Definition plain_lines : list Node :=
  [ mkNode 30 (Do (CPrint (SStr "done")) Ret);
    mkNode 10 (Do (CSet "X" (VNum 1)) Ret);
    mkNode 20 (Ask (QGet "X") (fun v => Do (CSet "Y" v) Ret)) ].

(** A first program whose only statement jumps and then fails, which leaves
    [jumped] set when the run ends. *)
Definition jump_and_fail : list parsed :=
  [ Parsed (mkNode 10 (Do (CGoto 50) (Do CReturn Ret))) ].

(** * Properties *)

(** ** The monad and the frame of a statement *)

Ltac unfold_methods :=
  unfold caught, try_catch, perform, answer, set, get, array, setArray,
    getConst, pause, goto, loopStart, loopJump, gosub, return_, halt, print,
    end_, mbind, M_bind, mret, M_ret, gets, modify, throw in *.

(** Case analysis on what a method reads from the engine. *)
Ltac split_method :=
  repeat (simpl;
    match goal with
    | |- context [match ?x with Some _ => _ | None => _ end] => destruct x eqn:?
    | |- context [match ?x with VScalar _ => _ | VArray _ => _ end] => destruct x eqn:?
    | |- context [match ?x with SUndefined => _ | _ => _ end] => destruct x eqn:?
    | |- context [if ?x then _ else _] => destruct x eqn:?
    end); simpl.

Lemma keeps_refl s : keeps s s.
Proof. split; auto. Qed.

Lemma keeps_trans s1 s2 s3 : keeps s1 s2 -> keeps s2 s3 -> keeps s1 s3.
Proof.
  intros [P1 T1 E1 O1 H1 I1 C1] [P2 T2 E2 O2 H2 I2 C2].
  split; try congruence; auto.
  - intros Hc. destruct (C2 Hc) as [Hj Hl]. destruct (C1 Hj) as [Hj' Hl'].
    split; congruence.
Qed.

Lemma end_keeps err s : keeps s (state_of (end_ err s)).
Proof.
  unfold_methods. split; simpl; auto; try discriminate.
  intros o Ho. rewrite Ho. reflexivity.
Qed.

Lemma perform_keeps c s : keeps s (state_of (perform c s)).
Proof.
  destruct c; unfold_methods; simpl;
    split_method;
    split; simpl; auto; try discriminate;
    try (intros o Ho; rewrite Ho; reflexivity).
Qed.

Lemma answer_keeps q s : keeps s (state_of (answer q s)).
Proof.
  destruct q; unfold_methods; simpl;
    split_method;
    split; simpl; auto; try discriminate;
    try (intros o Ho; rewrite Ho; reflexivity).
Qed.

Lemma runScript_keeps k : forall s, keeps s (state_of (runScript k s)).
Proof.
  induction k as [| e | c k IH | q k IH]; intros s; simpl.
  - apply keeps_refl.
  - apply keeps_refl.
  - unfold mbind, M_bind. pose proof (perform_keeps c s) as Hc.
    destruct (perform c s) as [[] s' | e s']; simpl in *; [| exact Hc].
    eapply keeps_trans; [exact Hc | apply IH].
  - unfold mbind, M_bind. pose proof (answer_keeps q s) as Hq.
    destruct (answer q s) as [v s' | e s']; simpl in *; [| exact Hq].
    eapply keeps_trans; [exact Hq | apply IH].
Qed.

Lemma caught_keeps k s : keeps s (caught k s).
Proof.
  unfold caught, try_catch. pose proof (runScript_keeps k s) as Hk.
  destruct (runScript k s) as [[] s' | e s']; simpl in *; [exact Hk |].
  eapply keeps_trans; [exact Hk | exact (end_keeps (Some e) s')].
Qed.

(** ** The program store *)

Lemma increasing_tail l ls : increasing (l :: ls) = true -> increasing ls = true.
Proof.
  simpl. destruct ls as [| l' ls']; [reflexivity |].
  intros H. apply andb_prop in H. tauto.
Qed.

Lemma increasing_head ls : forall l j b,
  increasing (l :: ls) = true -> ls !! j = Some b -> l < b.
Proof.
  induction ls as [| l' ls IH]; intros l j b Hinc Hj; [discriminate |].
  simpl in Hinc. apply andb_prop in Hinc. destruct Hinc as [Hlt Hinc].
  apply Z.ltb_lt in Hlt.
  destruct j as [| j]; simpl in Hj.
  - inversion Hj. subst. exact Hlt.
  - specialize (IH l' j b Hinc Hj). lia.
Qed.

Lemma increasing_lookup ls : forall i j a b,
  increasing ls = true -> ls !! i = Some a -> ls !! j = Some b ->
  (i < j)%nat -> a < b.
Proof.
  induction ls as [| l ls IH]; intros i j a b Hinc Hi Hj Hlt; [discriminate |].
  destruct j as [| j]; [lia |].
  destruct i as [| i]; simpl in Hi, Hj.
  - inversion Hi. subst. eapply increasing_head; eauto.
  - eapply IH; eauto using increasing_tail. lia.
Qed.

Lemma increasing_take ls : forall k, increasing ls = true -> increasing (take k ls) = true.
Proof.
  induction ls as [| l ls IH]; intros k Hinc; destruct k as [| k]; try reflexivity.
  pose proof (IH k (increasing_tail _ _ Hinc)) as Hk.
  change (take (S k) (l :: ls)) with (l :: take k ls).
  destruct ls as [| l' ls'], k as [| k']; try reflexivity.
  simpl in Hinc. apply andb_prop in Hinc. destruct Hinc as [Hlt _].
  change (take (S k') (l' :: ls')) with (l' :: take k' ls') in *.
  simpl. simpl in Hk. rewrite Hlt. exact Hk.
Qed.

Lemma ascending_lookup p i j m n :
  ascending p -> p !! i = Some m -> p !! j = Some n -> (i < j)%nat ->
  node_lineno m < node_lineno n.
Proof.
  unfold ascending. intros Hasc Hi Hj Hlt.
  eapply increasing_lookup; eauto; rewrite list_lookup_fmap.
  - rewrite Hi. reflexivity.
  - rewrite Hj. reflexivity.
Qed.

(** Where [find] stops is where the node that it returns sits. *)
Lemma find_indexOfLine l p node :
  List.find (fun n => Z.eqb (node_lineno n) l) p = Some node ->
  exists i, indexOfLine l p = Some i /\ p !! i = Some node /\ node_lineno node = l.
Proof.
  induction p as [| n p IH]; simpl; [discriminate |].
  destruct (Z.eqb (node_lineno n) l) eqn:E.
  - intros H. inversion H. subst. exists O. apply Z.eqb_eq in E. auto.
  - intros H. destruct (IH H) as (i & Hi & Hp & Hl).
    exists (S i). rewrite Hi. auto.
Qed.

Lemma find_none_indexOfLine l p :
  List.find (fun n => Z.eqb (node_lineno n) l) p = None -> indexOfLine l p = None.
Proof.
  induction p as [| n p IH]; simpl; [reflexivity |].
  destruct (Z.eqb (node_lineno n) l); [discriminate |].
  intros H. rewrite (IH H). reflexivity.
Qed.

(** In a loaded program the node of a line is the one [find] returns. *)
Lemma ascending_find p : forall i node,
  ascending p -> p !! i = Some node ->
  List.find (fun n => Z.eqb (node_lineno n) (node_lineno node)) p = Some node
  /\ indexOfLine (node_lineno node) p = Some i.
Proof.
  induction p as [| n p IH]; intros i node Hasc Hi; [discriminate |].
  destruct i as [| i]; simpl in *.
  - inversion Hi. subst. rewrite Z.eqb_refl. auto.
  - assert (Hlt : node_lineno n < node_lineno node).
    { eapply (ascending_lookup (n :: p) O (S i)); eauto. lia. }
    assert (E : Z.eqb (node_lineno n) (node_lineno node) = false)
      by (apply Z.eqb_neq; lia).
    rewrite E.
    destruct (IH i node) as [Hf Hx]; auto.
    { unfold ascending in *. simpl in Hasc. eapply increasing_tail; eauto. }
    rewrite Hx. auto.
Qed.

Lemma getCurLine_lineno s node :
  getCurLine s = Some node -> node_lineno node = lineno s.
Proof.
  unfold getCurLine. intros H.
  destruct (find_indexOfLine _ _ _ H) as (i & _ & _ & Hl). exact Hl.
Qed.

(** With the cursor on line [i] of a loaded program, the current line is
    that line and the next line is line [i + 1]. *)
Lemma cursor_lines s i node :
  ascending (program s) -> program s !! i = Some node ->
  lineno s = node_lineno node ->
  getCurLine s = Some node /\ getNextLine s = program s !! S i.
Proof.
  intros Hasc Hi Hl. unfold getCurLine, getNextLine. rewrite Hl.
  destruct (ascending_find _ _ _ Hasc Hi) as [Hf Hx].
  rewrite Hf, Hx. auto.
Qed.

(** The current line of a loaded program has a position. *)
Lemma getCurLine_position s node :
  getCurLine s = Some node ->
  exists i, program s !! i = Some node /\ getNextLine s = program s !! S i.
Proof.
  unfold getCurLine, getNextLine. intros H.
  destruct (find_indexOfLine _ _ _ H) as (i & Hx & Hp & _).
  exists i. rewrite Hx. auto.
Qed.

(** ** One statement inside the run loop *)

Lemma reaches_keeps k s c t : reaches k s c t -> keeps s t.
Proof.
  induction 1 as [c k s | c0 k s s' c t Hc _ IH | q k s v s' c t Hq _ IH].
  - apply keeps_refl.
  - eapply keeps_trans; [| exact IH].
    pose proof (perform_keeps c0 s) as Hk. rewrite Hc in Hk. exact Hk.
  - eapply keeps_trans; [| exact IH].
    pose proof (answer_keeps q s) as Hk. rewrite Hq in Hk. exact Hk.
Qed.

(** From the call on, the statement goes the way of the call and of what
    follows it. *)
Lemma caught_reaches k s c t :
  reaches k s c t -> exists k', caught k s = caught (Do c k') t.
Proof.
  induction 1 as [c k s | c0 k s s' c t Hc _ IH | q k s v s' c t Hq _ IH].
  - exists k. reflexivity.
  - destruct IH as [k' IH]. exists k'. rewrite <- IH.
    unfold caught, try_catch. simpl. unfold mbind, M_bind. rewrite Hc. reflexivity.
  - destruct IH as [k' IH]. exists k'. rewrite <- IH.
    unfold caught, try_catch. simpl. unfold mbind, M_bind. rewrite Hq. reflexivity.
Qed.

Lemma caught_Do c k t :
  caught (Do c k) t =
  match perform c t with
  | Normal _ t' => caught k t'
  | Thrown e t' => state_of (end_ (Some e) t')
  end.
Proof.
  unfold caught, try_catch. simpl. unfold mbind, M_bind.
  destruct (perform c t); reflexivity.
Qed.

(** A call that ends the run, by [end] or by throwing, decides how the
    statement leaves the engine: ended, with the promise settled by that
    call. *)
Lemma caught_ends_at k s c t o :
  reaches k s c t ->
  ended (caught (Do c Ret) t) = true ->
  onEnd (caught (Do c Ret) t) = Some o ->
  ended (caught k s) = true /\ onEnd (caught k s) = Some o
  /\ trace (caught k s) = trace s.
Proof.
  intros Hr He Ho. destruct (caught_reaches _ _ _ _ Hr) as [k' Hk].
  rewrite Hk. rewrite caught_Do in *.
  pose proof (reaches_keeps _ _ _ _ Hr) as Hst.
  pose proof (perform_keeps c t) as Hct.
  destruct (perform c t) as [[] t' | e t']; simpl in Hct.
  - change (caught Ret t') with t' in He, Ho.
    pose proof (caught_keeps k' t') as Hk'.
    repeat split.
    + apply Hk'. exact He.
    + apply Hk'. exact Ho.
    + rewrite (keeps_trace _ _ Hk'), (keeps_trace _ _ Hct). apply Hst.
  - repeat split; auto.
    pose proof (end_keeps (Some e) t') as Hend.
    rewrite (keeps_trace _ _ Hend), (keeps_trace _ _ Hct). apply Hst.
Qed.

Lemma step_found s node :
  getCurLine s = Some node -> step s = caught (node_run node) (enter node s).
Proof. unfold step. intros H. rewrite H. reflexivity. Qed.

Lemma step_keeps s node :
  getCurLine s = Some node -> keeps (enter node s) (step s).
Proof. intros H. rewrite (step_found _ _ H). apply caught_keeps. Qed.

(** A step that leaves the run going has run the statement at the cursor. *)
Lemma step_running s :
  ended (step s) = false -> exists node, getCurLine s = Some node.
Proof.
  unfold step. destruct (getCurLine s) as [node |]; [eauto | discriminate].
Qed.

Lemma execute_loop_ended fuel s :
  ended (step s) = true -> execute_loop (S fuel) s = (Returned, step s).
Proof. intros H. simpl. rewrite H. reflexivity. Qed.

Lemma with_halted_id s : halted s = false -> with_halted false s = s.
Proof. destruct s. simpl. intros ->. reflexivity. Qed.

(** While the run has not ended, its promise is pending: this holds at
    every call of a statement that was entered with a pending promise. *)
Lemma calls_pending s c t :
  calls s c t -> onEnd s = None -> ended t = false -> onEnd t = None.
Proof.
  intros (node & _ & Hr) Hpend Hend.
  apply (keeps_pending _ _ (reaches_keeps _ _ _ _ Hr)); [| exact Hend].
  intros _. exact Hpend.
Qed.

(** The run loop around a call that ends the run: [execute] returns after
    this statement, nothing is scheduled, and the promise has the value the
    call gave it. *)
Lemma execute_ends_at fuel s c t o :
  calls s c t ->
  ended (caught (Do c Ret) t) = true ->
  onEnd (caught (Do c Ret) t) = Some o ->
  exists s', execute (S fuel) s = (Returned, s')
    /\ ended s' = true /\ onEnd s' = Some o
    /\ trace s' = (trace s ++ [lineno s])%list.
Proof.
  intros (node & Hcur & Hr) He Ho.
  destruct (caught_ends_at _ _ _ _ _ Hr He Ho) as (He' & Ho' & Ht').
  assert (Hcur' : getCurLine (with_halted false s) = Some node) by exact Hcur.
  exists (step (with_halted false s)). unfold execute.
  rewrite (step_found _ _ Hcur').
  rewrite execute_loop_ended by (rewrite (step_found _ _ Hcur'); exact He').
  rewrite (step_found _ _ Hcur').
  repeat split; auto.
  rewrite Ht'. simpl. rewrite (getCurLine_lineno _ _ Hcur). reflexivity.
Qed.

(** ** Variable environment *)


(** ** Loop registry *)

Lemma loopJump_found name loop t :
  loops t !! name = Some loop ->
  let v := loop_value loop + loop_increment loop in
  let base :=
    with_variables (<[loop_variable loop := VNum v]>)
      (with_loops (<[name :=
         mkLoop (loop_variable loop) v (loop_increment loop) (loop_max loop)
                (loop_lineno loop)]>) t) in
  loopJump name t =
  Normal tt (if Z.ltb v (loop_max loop)
             then with_jumped true (with_lineno (loop_lineno loop) base)
             else base).
Proof.
  intros H. unfold_methods. simpl. rewrite H. simpl.
  destruct (Z.leb_spec (loop_max loop) (loop_value loop + loop_increment loop)) as [Hle | Hlt];
    destruct (Z.ltb_spec (loop_value loop + loop_increment loop) (loop_max loop));
    try lia; reflexivity.
Qed.

Lemma loopJumps_descriptor n : forall s variable initial increment max resume,
  loops s !! variable = Some (mkLoop variable initial increment max resume) ->
  loops (loopJumps n variable s) !! variable
    = Some (mkLoop variable (initial + Z.of_nat n * increment) increment max resume)
  /\ (n <> O -> variables (loopJumps n variable s) !! variable
                = Some (VNum (initial + Z.of_nat n * increment))).
Proof.
  induction n as [| n IH]; intros s variable initial increment max resume H.
  - simpl. rewrite Z.add_0_r. split; [exact H | congruence].
  - destruct (IH _ _ _ _ _ _ H) as [Hd _].
    simpl loopJumps. rewrite (loopJump_found _ _ _ Hd). simpl.
    replace (initial + Z.of_nat n * increment + increment)
      with (initial + Z.of_nat (S n) * increment) by lia.
    destruct (Z.ltb _ max); simpl; rewrite !lookup_insert_eq; auto.
Qed.



(** ** Call stack *)

Lemma gosub_pushes s target :
  let address := match getNextLine s with
                 | Some n => node_lineno n
                 | None => lineno s + 1
                 end in
  gosub target s =
  Normal tt (with_jumped true (with_lineno target
               (with_stack (stack s ++ [address]) s))).
Proof.
  unfold_methods. simpl. destruct (getNextLine s); reflexivity.
Qed.

Lemma return_pops s st address :
  stack s = (st ++ [address])%list ->
  return_ s = Normal tt (with_jumped true (with_lineno address (with_stack st s))).
Proof.
  intros H. unfold_methods. simpl. rewrite H, last_snoc. simpl.
  rewrite removelast_last. reflexivity.
Qed.

Lemma return_empty s :
  stack s = [] ->
  return_ s = Normal tt (state_of (end_ (Some (RuntimeError (lineno s)
                "There are no function calls to return from 🤷")) s)).
Proof. intros H. unfold_methods. simpl. rewrite H. reflexivity. Qed.

(** C5. When the statement at line L, at position [i] of the program, calls
    [gosub(target)], the address pushed is the line number of the statement
    at position [i + 1], or L + 1 when L is the last line; the cursor is
    set to [target] and [jumped] is set.  The [return] that follows, with
    the stack as the call left it, pops that address and moves the cursor
    to it: past the call statement, on the line that follows it when there
    is one. *)
Theorem gosub_then_return (s : Basic) (i : nat) (cur : Node) (target : Z) :
  ascending (program s) ->
  program s !! i = Some cur ->
  lineno s = node_lineno cur ->
  let address := match program s !! S i with
                 | Some n => node_lineno n
                 | None => lineno s + 1
                 end in
  exists s1,
    gosub target s = Normal tt s1
    /\ stack s1 = (stack s ++ [address])%list
    /\ lineno s1 = target /\ jumped s1 = true
    /\ lineno s < address
    /\ (forall u, stack u = stack s1 -> program u = program s ->
        exists s2,
          return_ u = Normal tt s2
          /\ stack s2 = stack s /\ lineno s2 = address /\ jumped s2 = true
          /\ (forall n, program s !! S i = Some n -> getCurLine s2 = Some n)).
Proof.
  intros Hasc Hi Hl address.
  destruct (cursor_lines s i cur Hasc Hi Hl) as [_ Hnext].
  pose proof (gosub_pushes s target) as Hg. rewrite Hnext in Hg.
  fold address in Hg. simpl in Hg.
  exists (with_jumped true (with_lineno target
            (with_stack (stack s ++ [address]) s))).
  split; [exact Hg |]. simpl.
  split; [reflexivity |]. split; [reflexivity |]. split; [reflexivity |].
  split.
  - subst address. destruct (program s !! S i) as [n |] eqn:Hn; [| lia].
    rewrite Hl. eapply ascending_lookup; eauto.
  - intros u Hu Hp.
    exists (with_jumped true (with_lineno address (with_stack (stack s) u))).
    split; [apply return_pops; exact Hu |]. simpl.
    split; [reflexivity |]. split; [reflexivity |]. split; [reflexivity |].
    intros n Hn.
    apply (cursor_lines (with_jumped true (with_lineno address (with_stack (stack s) u)))
             (S i) n); simpl.
    + rewrite Hp. exact Hasc.
    + rewrite Hp. exact Hn.
    + subst address. rewrite Hn. reflexivity.
Qed.

(** A subroutine call on line 10 of a program with the lines 10, 20, 30. *)
Lemma gosub_then_return_witness :
  let s := with_lineno 10 (with_program
             [mkNode 10 (Do (CGosub 30) Ret); mkNode 20 (Do (CEnd None) Ret);
              mkNode 30 (Do CReturn Ret)]
             (new_Basic ∅)) in
  ascending (program s)
  /\ exists s1,
       gosub 30 s = Normal tt s1
       /\ stack s1 = [20] /\ lineno s1 = 30 /\ jumped s1 = true
       /\ 10 < 20
       /\ (forall u, stack u = stack s1 -> program u = program s ->
           exists s2,
             return_ u = Normal tt s2
             /\ stack s2 = [] /\ lineno s2 = 20 /\ jumped s2 = true
             /\ (forall n, Some (mkNode 20 (Do (CEnd None) Ret)) = Some n ->
                   getCurLine s2 = Some n)).
Proof.
  intros s. split; [reflexivity |].
  exact (gosub_then_return s 0 (mkNode 10 (Do (CGosub 30) Ret)) 30
           eq_refl eq_refl eq_refl).
Defined.

(** The whole run of a call on line 10 to a subroutine on line 30 that
    returns: control comes back on line 20. *)
Lemma subroutine_run :
  let r := run_parsed 10 subroutine_program (new_Basic ∅) in
  fst r = Returned
  /\ trace (snd r) = [10; 30; 20]
  /\ stack (snd r) = []
  /\ onEnd (snd r) = Some Resolved.
Proof. vm_compute. repeat split; reflexivity. Qed.

(** C6. When a statement calls [return] with an empty call stack while the
    run is going, the call fails with a [RuntimeError]: the run is ended
    with that error as the promise's rejection value, [execute] returns
    after this statement and no later statement is run. *)
Theorem return_on_empty_stack (fuel : nat) (s t : Basic) :
  calls s CReturn t ->
  stack t = [] ->
  onEnd t = None ->
  exists message s',
    let e := RuntimeError (lineno t) message in
    return_ t = Normal tt (state_of (end_ (Some e) t))
    /\ execute (S fuel) s = (Returned, s')
    /\ ended s' = true
    /\ onEnd s' = Some (Rejected e)
    /\ trace s' = (trace s ++ [lineno s])%list.
Proof.
  intros Hcalls Hst Hpend.
  exists "There are no function calls to return from 🤷".
  destruct (execute_ends_at fuel s CReturn t
              (Rejected (RuntimeError (lineno t)
                 "There are no function calls to return from 🤷")) Hcalls)
    as (s' & Hex & He & Ho & Ht).
  - rewrite caught_Do. simpl perform. rewrite (return_empty _ Hst). reflexivity.
  - rewrite caught_Do. simpl perform. rewrite (return_empty _ Hst).
    unfold caught, try_catch. simpl. rewrite Hpend. reflexivity.
  - exists s'. cbv zeta. split; [apply return_empty; exact Hst |]. auto.
Qed.

(** A one-line program whose statement returns without a call. *)
Lemma return_on_empty_stack_witness :
  let node := mkNode 10 (Do CReturn (Do (CPrint (SStr "after")) Ret)) in
  let s := with_lineno 10 (with_program [node; mkNode 20 Ret] (new_Basic ∅)) in
  exists message s',
    return_ (enter node s)
      = Normal tt (state_of (end_ (Some (RuntimeError 10 message)) (enter node s)))
    /\ execute 1 s = (Returned, s')
    /\ ended s' = true
    /\ onEnd s' = Some (Rejected (RuntimeError 10 message))
    /\ trace s' = [10].
Proof.
  intros node s.
  refine (return_on_empty_stack 0 s (enter node (with_halted false s)) _ eq_refl eq_refl).
  exists node. split; [reflexivity | apply reaches_here].
Defined.

(** ** Arrays *)

Lemma setArray_not_array vari sub v t :
  (forall cells, variables t !! vari <> Some (VArray cells)) ->
  setArray vari sub v t =
  Normal tt (state_of (end_ (Some (RuntimeError (lineno t)
               (vari ++ " is not an array, did you call ARRAY?"))) t)).
Proof.
  intros H. unfold_methods. simpl.
  destruct (variables t !! vari) as [[x | cells] |] eqn:E; try reflexivity.
  exfalso. exact (H cells eq_refl).
Qed.





(** ** A loop on the final line *)

(** With the cursor on the last line of a loaded program there is no next
    line. *)
Lemma last_line_no_next s final :
  ascending (program s) ->
  last (program s) = Some final ->
  lineno s = node_lineno final ->
  getCurLine s = Some final /\ getNextLine s = None.
Proof.
  intros Hasc Hlast Hl. rewrite last_lookup in Hlast.
  destruct (cursor_lines s _ final Hasc Hlast Hl) as [Hc Hn].
  split; [exact Hc |]. rewrite Hn. apply lookup_ge_None_2.
  destruct (program s); simpl; [discriminate | lia].
Qed.

(** C8. When the final statement of the program calls [loopStart] with the
    cursor still on it, the missing next line ends the run as a normal
    termination: the promise is resolved, not rejected, no loop is
    registered and no further statement is run; the loop variable has been
    set to its initial value by then. *)
Theorem loopStart_on_final_line (fuel : nat) (s t : Basic) (final : Node)
    (variable : string) (initial increment max : Z) :
  calls s (CLoopStart variable initial increment max) t ->
  ascending (program s) ->
  last (program s) = Some final ->
  lineno s = node_lineno final ->
  jumped t = false ->
  onEnd t = None ->
  let t' := state_of (loopStart variable initial increment max t) in
  variables t' !! variable = Some (VNum initial)
  /\ loops t' = loops t
  /\ ended t' = true
  /\ onEnd t' = Some Resolved
  /\ exists s', execute (S fuel) s = (Returned, s')
       /\ ended s' = true
       /\ onEnd s' = Some Resolved
       /\ trace s' = (trace s ++ [lineno s])%list.
Proof.
  intros Hcalls Hasc Hlast Hl Hj Hpend t'.
  assert (Hnext : getNextLine t = None).
  { destruct Hcalls as (node & _ & Hr).
    pose proof (reaches_keeps _ _ _ _ Hr) as Hk.
    destruct (keeps_cursor _ _ Hk Hj) as [_ Hlt]. simpl in Hlt.
    apply (last_line_no_next t final).
    - rewrite (keeps_program _ _ Hk). exact Hasc.
    - rewrite (keeps_program _ _ Hk). exact Hlast.
    - congruence. }
  assert (Hrun : loopStart variable initial increment max t
            = Normal tt (with_onEnd (Some Resolved) (with_ended true
                (with_variables (<[variable := VNum initial]>) t)))).
  { unfold_methods. simpl.
    change (getNextLine (with_variables <[variable:=VNum initial]> t))
      with (getNextLine t).
    rewrite Hnext. simpl. rewrite Hpend. reflexivity. }
  subst t'. rewrite Hrun. simpl.
  split; [apply lookup_insert_eq |].
  split; [reflexivity |]. split; [reflexivity |]. split; [reflexivity |].
  apply (execute_ends_at fuel s _ t Resolved Hcalls);
    rewrite caught_Do; simpl perform; rewrite Hrun; reflexivity.
Qed.

(** A program whose second and final line starts a loop. *)
Lemma loopStart_on_final_line_witness :
  let final := mkNode 20 (Do (CLoopStart "I" 1 1 5) Ret) in
  let s := with_lineno 20 (with_program [mkNode 10 Ret; final] (new_Basic ∅)) in
  let t' := state_of (loopStart "I" 1 1 5 (enter final s)) in
  variables t' !! "I" = Some (VNum 1)
  /\ loops t' = ∅
  /\ ended t' = true
  /\ onEnd t' = Some Resolved
  /\ exists s', execute 1 s = (Returned, s')
       /\ ended s' = true
       /\ onEnd s' = Some Resolved
       /\ trace s' = [20].
Proof.
  intros final s.
  refine (loopStart_on_final_line 0 s (enter final (with_halted false s)) final
            "I" 1 1 5 _ eq_refl eq_refl eq_refl eq_refl eq_refl).
  exists final. split; [reflexivity | apply reaches_here].
Defined.

(** ** Halting *)

Lemma reaches_halt k s t : reaches k s CHalt t -> halted (caught k s) = true.
Proof.
  intros Hr. destruct (caught_reaches _ _ _ _ Hr) as [k' Hk].
  rewrite Hk, caught_Do. simpl.
  apply (keeps_halted _ _ (caught_keeps k' (with_halted true t))). reflexivity.
Qed.

(** Moving the cursor touches nothing but the cursor and [jumped]. *)
Lemma advance_frame s s2 :
  advance s = Some s2 ->
  pending_delay s2 = pending_delay s /\ halted s2 = halted s
  /\ ended s2 = ended s /\ onEnd s2 = onEnd s /\ trace s2 = trace s
  /\ program s2 = program s /\ jumped s2 = false.
Proof.
  unfold advance. destruct (jumped s) eqn:Hj.
  - intros H. inversion H. subst. simpl. auto 10.
  - destruct (getNextLine s); [| discriminate].
    intros H. inversion H. subst. simpl. auto 10.
Qed.




(** ** Loading: the sort and the check for repeated lines *)

Lemma increasing_cons l ls :
  increasing (l :: ls) = true <->
  (forall x, head ls = Some x -> l < x) /\ increasing ls = true.
Proof.
  simpl. destruct ls as [| l' ls']; simpl.
  - split; [split; [discriminate | reflexivity] | reflexivity].
  - rewrite andb_true_iff, Z.ltb_lt. split.
    + intros [Hlt Hinc]. split; [| exact Hinc]. intros x Hx. inversion Hx. subst. exact Hlt.
    + intros [Hlt Hinc]. split; [apply Hlt; reflexivity | exact Hinc].
Qed.

Lemma insert_node_linenos n p :
  node_lineno <$> insert_node n p ≡ₚ node_lineno n :: (node_lineno <$> p).
Proof.
  induction p as [| m p IH]; simpl; [reflexivity |].
  destruct (Z.leb (node_lineno n) (node_lineno m)); simpl; [reflexivity |].
  rewrite IH. apply Permutation_swap.
Qed.

Lemma sort_nodes_linenos p : node_lineno <$> sort_nodes p ≡ₚ node_lineno <$> p.
Proof.
  induction p as [| n p IH]; simpl; [reflexivity |].
  rewrite insert_node_linenos, IH. reflexivity.
Qed.

Lemma sort_nodes_perm p : sort_nodes p ≡ₚ p.
Proof.
  assert (Hins : forall n q, insert_node n q ≡ₚ n :: q).
  { intros n q. induction q as [| m q IH]; simpl; [reflexivity |].
    destruct (Z.leb (node_lineno n) (node_lineno m)); [reflexivity |].
    rewrite IH. apply Permutation_swap. }
  induction p as [| n p IH]; simpl; [reflexivity |].
  rewrite Hins, IH. reflexivity.
Qed.

Lemma insert_node_ascending n p :
  ascending p -> node_lineno n ∉ (node_lineno <$> p) -> ascending (insert_node n p).
Proof.
  unfold ascending. induction p as [| m p IH]; intros Hasc Hnotin; [reflexivity |].
  simpl insert_node.
  destruct (Z.leb_spec (node_lineno n) (node_lineno m)) as [Hle | Hlt].
  - change (increasing (node_lineno n :: (node_lineno <$> m :: p)) = true).
    apply increasing_cons. split; [| exact Hasc].
    intros x Hx. simpl in Hx. inversion Hx. subst.
    assert (node_lineno n <> node_lineno m).
    { intros E. apply Hnotin. rewrite E. simpl. left. }
    lia.
  - change (increasing (node_lineno m :: (node_lineno <$> insert_node n p)) = true).
    change (increasing (node_lineno m :: (node_lineno <$> p)) = true) in Hasc.
    apply increasing_cons in Hasc. destruct Hasc as [Hhead Hinc].
    apply increasing_cons. split.
    + intros x Hx. destruct p as [| m' p']; simpl in Hx.
      * inversion Hx. subst. exact Hlt.
      * destruct (Z.leb (node_lineno n) (node_lineno m')); simpl in Hx;
          inversion Hx; subst; [exact Hlt | apply Hhead; reflexivity].
    + apply IH; [exact Hinc |].
      intros Hin. apply Hnotin. simpl. right. exact Hin.
Qed.

(** A program with no line number twice is loaded in ascending order. *)
Lemma sort_nodes_ascending p :
  NoDup (node_lineno <$> p) -> ascending (sort_nodes p).
Proof.
  induction p as [| n p IH]; intros Hnd; [reflexivity |].
  simpl in Hnd. apply NoDup_cons in Hnd. destruct Hnd as [Hnotin Hnd].
  simpl. apply insert_node_ascending; [apply IH; exact Hnd |].
  rewrite sort_nodes_linenos. exact Hnotin.
Qed.

(** On such a program the check for repeated lines finds nothing. *)
Lemma check_repeated_ascending p : forall seen s,
  ascending p ->
  (forall l n, l ∈ seen -> n ∈ p -> l < node_lineno n) ->
  check_repeated p seen s = s.
Proof.
  induction p as [| n p IH]; intros seen s Hasc Hseen; [reflexivity |].
  simpl. rewrite bool_decide_eq_false_2.
  - apply IH.
    + unfold ascending in *. eapply increasing_tail; exact Hasc.
    + intros l m Hl Hm. apply elem_of_union in Hl. destruct Hl as [Hl | Hl].
      * apply elem_of_singleton in Hl. subst l.
        apply list_elem_of_lookup in Hm. destruct Hm as [j Hj].
        apply (ascending_lookup (n :: p) O (S j)); auto. lia.
      * apply (Hseen l m Hl). right. exact Hm.
  - intros Hin. specialize (Hseen _ n Hin). 
    assert (node_lineno n < node_lineno n) by (apply Hseen; left). lia.
Qed.

Lemma parse_all_parsed nodes s : parse_all (List.map Parsed nodes) s = (nodes, s).
Proof.
  induction nodes as [| n nodes IH]; simpl; [reflexivity |].
  rewrite IH. reflexivity.
Qed.

(** [run] parses the lines that are not blank, in the order of the text. *)
Lemma run_skips_blank_lines parseLine fuel s :
  run parseLine fuel ("10 A" ++ String newline ("  " ++ String newline "20 B")) s
  = run_parsed fuel [parseLine "10 A"; parseLine "20 B"] s.
Proof. reflexivity. Qed.

(** ** Execution in line order *)

Lemma perform_no_jump c s :
  is_jump c = false ->
  jumped (state_of (perform c s)) = jumped s
  /\ lineno (state_of (perform c s)) = lineno s.
Proof.
  destruct c; simpl is_jump; intros H; try discriminate;
    unfold_methods; split_method; auto.
Qed.

Lemma answer_no_jump q s :
  jumped (state_of (answer q s)) = jumped s
  /\ lineno (state_of (answer q s)) = lineno s.
Proof.
  destruct q; unfold_methods; split_method; auto.
Qed.

Lemma runScript_jump_free k :
  jump_free k -> forall s,
  jumped (state_of (runScript k s)) = jumped s
  /\ lineno (state_of (runScript k s)) = lineno s.
Proof.
  induction 1 as [| e | c k Hc _ IH | q k _ IH]; intros s; simpl; auto.
  - unfold mbind, M_bind. pose proof (perform_no_jump c s Hc) as Hp.
    destruct (perform c s) as [[] s' | e s']; simpl in *; [| exact Hp].
    destruct (IH s') as [Hj Hl]. split; [rewrite Hj | rewrite Hl]; apply Hp.
  - unfold mbind, M_bind. pose proof (answer_no_jump q s) as Hq.
    destruct (answer q s) as [v s' | e s']; simpl in *; [| exact Hq].
    destruct (IH v s') as [Hj Hl]. split; [rewrite Hj | rewrite Hl]; apply Hq.
Qed.

Lemma caught_jump_free k s :
  jump_free k ->
  jumped (caught k s) = jumped s /\ lineno (caught k s) = lineno s.
Proof.
  intros Hk. unfold caught, try_catch.
  pose proof (runScript_jump_free k Hk s) as H.
  destruct (runScript k s) as [[] s' | e s']; simpl in *; exact H.
Qed.

Section InOrder.

Variable p : list Node.
Variable t0 : list Z.
Hypothesis Hasc : ascending p.
Hypothesis Hfree : forall n, n ∈ p -> jump_free (node_run n).

(** One call of [execute] keeps the order, and hands the engine to the
    timer between two statements. *)
Lemma execute_loop_in_order : forall fuel s,
  in_order p t0 s ->
  ran_in_order p t0 (snd (execute_loop fuel s))
  /\ (forall d, fst (execute_loop fuel s) = Scheduled d ->
        in_order p t0 (snd (execute_loop fuel s))).
Proof.
  induction fuel as [| fuel IH]; intros s (Hp & Hj & i & n & Hi & Hl & Ht).
  - simpl. split; [exists i; exact Ht | discriminate].
  - assert (Hasc' : ascending (program s)) by (rewrite Hp; exact Hasc).
    assert (Hi' : program s !! i = Some n) by (rewrite Hp; exact Hi).
    destruct (cursor_lines s i n Hasc' Hi' Hl) as [Hcur Hnext].
    rewrite Hp in Hnext.
    pose proof (step_keeps _ _ Hcur) as Hk.
    assert (Hn : jump_free (node_run n)).
    { apply Hfree. apply list_elem_of_lookup. eauto. }
    destruct (caught_jump_free (node_run n) (enter n s) Hn) as [Hj1 Hl1].
    rewrite <- (step_found _ _ Hcur) in Hj1, Hl1. simpl in Hj1, Hl1.
    assert (Ht1 : trace (step s) = (t0 ++ take (S i) (node_lineno <$> p))%list).
    { rewrite (keeps_trace _ _ Hk). simpl. rewrite Ht.
      rewrite (take_S_r _ _ (node_lineno n)), app_assoc; [reflexivity |].
      rewrite list_lookup_fmap, Hi. reflexivity. }
    assert (Hp1 : program (step s) = p).
    { rewrite (keeps_program _ _ Hk). exact Hp. }
    simpl execute_loop.
    destruct (ended (step s)) eqn:He.
    { simpl. split; [exists (S i); exact Ht1 | discriminate]. }
    unfold advance. rewrite Hj1, Hj.
    assert (Hnext1 : getNextLine (step s) = p !! S i).
    { unfold getNextLine. rewrite Hp1, Hl1, <- Hp. rewrite <- Hp in Hnext. exact Hnext. }
    rewrite Hnext1.
    destruct (p !! S i) as [next |] eqn:Hsi.
    2:{ simpl. split; [exists (S i); exact Ht1 | discriminate]. }
    set (s2 := with_lineno (node_lineno next) (step s)).
    assert (Hin2 : in_order p t0 s2).
    { split; [exact Hp1 |]. split; [simpl; congruence |].
      exists (S i), next. auto. }
    destruct (pending_delay s2) as [d |] eqn:Hd.
    { simpl. split; [exists (S i); exact Ht1 |].
      intros ? _. destruct Hin2 as (Hq & Hjq & Hrest). split; [exact Hq |].
      split; [exact Hjq | exact Hrest]. }
    destruct (halted s2) eqn:Hh.
    { simpl. split; [exists (S i); exact Ht1 | discriminate]. }
    apply IH. exact Hin2.
Qed.

Lemma resume_in_order : forall timers fuel r,
  ran_in_order p t0 (snd r) ->
  (forall d, fst r = Scheduled d -> in_order p t0 (snd r)) ->
  ran_in_order p t0 (snd (resume timers fuel r)).
Proof.
  induction timers as [| timers IH]; intros fuel [x s] Hran Hin.
  - destruct x; exact Hran.
  - destruct x as [| d |]; simpl; try exact Hran.
    assert (Hs : in_order p t0 (with_halted false s)).
    { destruct (Hin d eq_refl) as (Hp & Hj & Hrest). split; [exact Hp |].
      split; [exact Hj | exact Hrest]. }
    apply IH; unfold execute; apply execute_loop_in_order; exact Hs.
Qed.

End InOrder.

Lemma run_parsed_in_order nodes fuel s0 :
  NoDup (node_lineno <$> nodes) ->
  (forall n, n ∈ sort_nodes nodes -> jump_free (node_run n)) ->
  jumped s0 = false ->
  let p := sort_nodes nodes in
  let r := run_parsed fuel (List.map Parsed nodes) s0 in
  ran_in_order p (trace s0) (snd r)
  /\ (forall d, fst r = Scheduled d -> in_order p (trace s0) (snd r)).
Proof.
  intros Hnd Hfree Hj p r. subst r. unfold run_parsed.
  rewrite parse_all_parsed. simpl ended. cbv iota.
  pose proof (sort_nodes_ascending nodes Hnd) as Hasc. fold p in Hasc, Hfree.
  rewrite check_repeated_ascending;
    [| exact Hasc | intros l n Hl; exfalso; set_solver].
  simpl program. fold p.
  destruct p as [| first rest] eqn:Hp.
  - simpl. split; [exists O; simpl; rewrite app_nil_r; reflexivity | discriminate].
  - unfold execute.
    apply (execute_loop_in_order (first :: rest) (trace s0) Hasc Hfree).
    split; [reflexivity |]. split; [exact Hj |].
    exists O, first. simpl. rewrite app_nil_r. auto.
Qed.



(** The whole run of [sparse_lines]. *)
Lemma sparse_lines_run :
  let r := run_parsed 10 (List.map Parsed sparse_lines) (new_Basic ∅) in
  fst r = Returned
  /\ trace (snd r) = [10; 25; 30]
  /\ console (snd r) = ["1"; "c"]
  /\ onEnd (snd r) = Some Resolved.
Proof. vm_compute. repeat split; reflexivity. Qed.

(** ** A repeated line number *)

Lemma check_repeated_keeps p : forall seen s, keeps s (check_repeated p seen s).
Proof.
  induction p as [| n p IH]; intros seen s; cbn [check_repeated]; [apply keeps_refl |].
  destruct (bool_decide (node_lineno n ∈ seen)); [| apply IH].
  eapply keeps_trans; [| apply IH]. apply end_keeps.
Qed.

(** A line number that the check has seen, or that two nodes carry, ends
    the run with a [ParseError] on such a line number. *)
Lemma check_repeated_finds p : forall seen s,
  onEnd s = None ->
  ~ NoDup (node_lineno <$> p) \/ (exists n, n ∈ p /\ node_lineno n ∈ seen) ->
  exists l message,
    ended (check_repeated p seen s) = true
    /\ onEnd (check_repeated p seen s) = Some (Rejected (ParseError l message))
    /\ ((l ∈ seen /\ l ∈ (node_lineno <$> p))
        \/ exists i j, (i < j)%nat /\ (node_lineno <$> p) !! i = Some l
                       /\ (node_lineno <$> p) !! j = Some l).
Proof.
  induction p as [| n p IH]; intros seen s Hpend Hdup.
  - exfalso. destruct Hdup as [Hnd | (n & Hn & _)].
    + apply Hnd. constructor.
    + inversion Hn.
  - cbn [check_repeated]. destruct (bool_decide_reflect (node_lineno n ∈ seen)) as [Hin | Hnotin].
    + set (s' := state_of (end_ _ s)).
      pose proof (check_repeated_keeps p seen s') as Hk.
      exists (node_lineno n), ("Line with number " ++ pretty (node_lineno n) ++ " repeated").
      split; [apply (keeps_ended _ _ Hk); reflexivity |].
      split; [apply (keeps_onEnd _ _ Hk); subst s'; unfold_methods; simpl;
              rewrite Hpend; reflexivity |].
      left. split; [exact Hin | simpl; left].
    + destruct (IH ({[node_lineno n]} ∪ seen) s Hpend) as (l & message & He & Ho & Hl).
      { destruct Hdup as [Hnd | (m & Hm & Hseen)].
        - destruct (decide (node_lineno n ∈ (node_lineno <$> p))) as [Hnp | Hnp].
          + right. apply list_elem_of_fmap in Hnp. destruct Hnp as (m & Hm & Hmp).
            exists m. split; [exact Hmp |]. rewrite <- Hm. set_solver.
          + left. intros Hp. apply Hnd. simpl. apply NoDup_cons. auto.
        - right. apply elem_of_cons in Hm. destruct Hm as [-> | Hm]; [contradiction |].
          exists m. split; [exact Hm | set_solver]. }
      exists l, message. split; [exact He |]. split; [exact Ho |].
      destruct Hl as [[Hseen Hlp] | (i & j & Hij & Hi & Hj)].
      * apply elem_of_union in Hseen. destruct Hseen as [Hseen | Hseen].
        -- apply elem_of_singleton in Hseen. subst l. right.
           apply list_elem_of_lookup in Hlp. destruct Hlp as [j Hj].
           exists O, (S j). split; [lia |]. split; [reflexivity | exact Hj].
        -- left. split; [exact Hseen | simpl; right; exact Hlp].
      * right. exists (S i), (S j). split; [lia |]. auto.
Qed.

(** What [run] does with every program in which a line number is repeated:
    the promise is rejected with a [ParseError] on a repeated line number,
    and the first statement of the sorted program is run all the same. *)
Lemma repeated_line_runs_one_statement nodes fuel s0 :
  ~ NoDup (node_lineno <$> nodes) ->
  let r := run_parsed (S fuel) (List.map Parsed nodes) s0 in
  exists l message first,
    fst r = Returned
    /\ ended (snd r) = true
    /\ onEnd (snd r) = Some (Rejected (ParseError l message))
    /\ (exists i j, (i < j)%nat
          /\ (node_lineno <$> sort_nodes nodes) !! i = Some l
          /\ (node_lineno <$> sort_nodes nodes) !! j = Some l)
    /\ head (sort_nodes nodes) = Some first
    /\ trace (snd r) = (trace s0 ++ [node_lineno first])%list.
Proof.
  intros Hdup r. subst r. unfold run_parsed.
  rewrite parse_all_parsed. simpl ended. cbv iota. simpl program.
  set (s2 := with_program (sort_nodes nodes) _).
  assert (Hdup' : ~ NoDup (node_lineno <$> sort_nodes nodes)).
  { rewrite sort_nodes_linenos. exact Hdup. }
  destruct (check_repeated_finds (sort_nodes nodes) ∅ s2 eq_refl (or_introl Hdup'))
    as (l & message & He & Ho & Hl).
  pose proof (check_repeated_keeps (sort_nodes nodes) ∅ s2) as Hk.
  set (s3 := check_repeated (sort_nodes nodes) ∅ s2) in *.
  rewrite (keeps_program _ _ Hk). simpl program.
  destruct (sort_nodes nodes) as [| first rest] eqn:Hsort.
  { exfalso. apply Hdup'. constructor. }
  exists l, message, first.
  set (s4 := with_halted false (with_lineno (node_lineno first) s3)).
  assert (Hcur : getCurLine s4 = Some first).
  { unfold getCurLine. simpl. rewrite (keeps_program _ _ Hk). simpl.
    rewrite Z.eqb_refl. reflexivity. }
  pose proof (step_keeps _ _ Hcur) as Hk4.
  assert (He4 : ended (step s4) = true) by (apply (keeps_ended _ _ Hk4); exact He).
  unfold execute. fold s4. rewrite (execute_loop_ended _ _ He4). simpl fst. simpl snd.
  split; [reflexivity |]. split; [exact He4 |].
  split; [apply (keeps_onEnd _ _ Hk4); exact Ho |].
  split.
  { destruct Hl as [[Hseen _] | Hl]; [set_solver | exact Hl]. }
  split; [reflexivity |].
  rewrite (keeps_trace _ _ Hk4). simpl. rewrite (keeps_trace _ _ Hk). reflexivity.
Qed.

(** C1 asks that no statement is run when a line number is repeated.  At
    [repeated_line_program] the promise is rejected with a [ParseError] on
    line 10, but the first statement with line number 10 has been run and
    has printed. *)
Theorem repeated_line_runs_first_statement :
  let r := run_parsed 10 repeated_line_program (new_Basic ∅) in
  fst r = Returned
  /\ onEnd (snd r) = Some (Rejected (ParseError 10 "Line with number 10 repeated"))
  /\ trace (snd r) = [10]
  /\ console (snd r) = ["A"].
Proof. vm_compute. repeat split; reflexivity. Qed.

(** * Further properties of the engine *)

(** ** What an execution keeps *)

Lemma runs_on_refl s : runs_on s s.
Proof. split; auto; reflexivity. Qed.

Lemma runs_on_trans s1 s2 s3 : runs_on s1 s2 -> runs_on s2 s3 -> runs_on s1 s3.
Proof.
  intros [P1 K1 C1 T1 E1 O1 I1 S1] [P2 K2 C2 T2 E2 O2 I2 S2].
  split; try congruence; auto; etransitivity; eauto.
Qed.

Ltac solve_runs_on :=
  split; unfold pending, settled; simpl; auto;
    try reflexivity; try (apply prefix_app_r; reflexivity);
    try discriminate; try (intros; eexists; reflexivity);
    try (intros o Ho; rewrite Ho; reflexivity).

Lemma end_settles err s : is_Some (onEnd (state_of (end_ err s))).
Proof.
  unfold_methods. simpl. destruct (onEnd s); simpl; eauto.
Qed.

Lemma end_runs_on err s : runs_on s (state_of (end_ err s)).
Proof.
  pose proof (end_settles err s) as Hs. revert Hs.
  unfold_methods. simpl. intros Hs. solve_runs_on.
Qed.

Lemma perform_runs_on c s : runs_on s (state_of (perform c s)).
Proof.
  destruct c; try apply end_runs_on;
    unfold_methods; split_method;
    try solve [solve_runs_on];
    match goal with
    | |- runs_on ?s (with_onEnd (settle ?o (onEnd ?s)) (with_ended true ?s')) =>
        pose proof (end_settles
          (match o with Rejected e => Some e | Resolved => None end) s') as Hs;
        revert Hs; unfold_methods; simpl; intros Hs; solve_runs_on
    end.
Qed.

Lemma answer_runs_on q s : runs_on s (state_of (answer q s)).
Proof.
  destruct q; unfold_methods; split_method; try solve [solve_runs_on].
  match goal with
  | |- runs_on ?s (with_onEnd (settle (Rejected ?e) (onEnd ?s)) _) =>
      exact (end_runs_on (Some e) s)
  end.
Qed.

Lemma runScript_runs_on k : forall s, runs_on s (state_of (runScript k s)).
Proof.
  induction k as [| e | c k IH | q k IH]; intros s; simpl.
  - apply runs_on_refl.
  - apply runs_on_refl.
  - unfold mbind, M_bind. pose proof (perform_runs_on c s) as Hc.
    destruct (perform c s) as [[] s' | e s']; simpl in *; [| exact Hc].
    eapply runs_on_trans; [exact Hc | apply IH].
  - unfold mbind, M_bind. pose proof (answer_runs_on q s) as Hq.
    destruct (answer q s) as [v s' | e s']; simpl in *; [| exact Hq].
    eapply runs_on_trans; [exact Hq | apply IH].
Qed.

Lemma caught_runs_on k s : runs_on s (caught k s).
Proof.
  unfold caught, try_catch. pose proof (runScript_runs_on k s) as Hk.
  destruct (runScript k s) as [[] s' | e s']; simpl in *; [exact Hk |].
  eapply runs_on_trans; [exact Hk | exact (end_runs_on (Some e) s')].
Qed.

Lemma enter_runs_on node s : runs_on s (enter node s).
Proof. unfold enter. solve_runs_on. Qed.

Lemma step_runs_on s : runs_on s (step s).
Proof.
  unfold step. destruct (getCurLine s) as [node |].
  - eapply runs_on_trans; [apply enter_runs_on | apply caught_runs_on].
  - apply end_runs_on.
Qed.

Lemma advance_runs_on s s2 : advance s = Some s2 -> runs_on s s2.
Proof.
  unfold advance. destruct (jumped s).
  - intros H. inversion H. solve_runs_on.
  - destruct (getNextLine s); [| discriminate].
    intros H. inversion H. solve_runs_on.
Qed.

Lemma execute_loop_runs_on fuel : forall s, runs_on s (snd (execute_loop fuel s)).
Proof.
  induction fuel as [| fuel IH]; intros s; simpl; [apply runs_on_refl |].
  pose proof (step_runs_on s) as Hstep.
  destruct (ended (step s)); [exact Hstep |].
  destruct (advance (step s)) as [s2 |] eqn:Hadv.
  - pose proof (advance_runs_on _ _ Hadv) as Hadv'.
    destruct (pending_delay s2).
    + simpl. eapply runs_on_trans; [exact Hstep |].
      eapply runs_on_trans; [exact Hadv' | solve_runs_on].
    + destruct (halted s2); simpl.
      * eapply runs_on_trans; eauto.
      * eapply runs_on_trans; [exact Hstep |].
        eapply runs_on_trans; [exact Hadv' | apply IH].
  - simpl. eapply runs_on_trans; [exact Hstep | exact (end_runs_on None (step s))].
Qed.

Lemma execute_runs_on fuel s : runs_on s (snd (execute fuel s)).
Proof.
  unfold execute. eapply runs_on_trans; [| apply execute_loop_runs_on].
  solve_runs_on.
Qed.

Lemma resume_runs_on timers : forall fuel r, runs_on (snd r) (snd (resume timers fuel r)).
Proof.
  induction timers as [| timers IH]; intros fuel [x s].
  - destruct x; apply runs_on_refl.
  - destruct x as [| d |]; simpl; try apply runs_on_refl.
    eapply runs_on_trans; [apply execute_runs_on | apply IH].
Qed.

(** X4. The promise is settled once.  When it is settled, by a resolution
    or by a rejection, no later call of [execute] and no timer resumption
    changes its value: later errors and later ends are lost. *)
Theorem promise_settles_once (timers fuel : nat) (s : Basic) (o : settlement) :
  onEnd s = Some o ->
  onEnd (snd (execute fuel s)) = Some o
  /\ onEnd (snd (resume timers fuel (execute fuel s))) = Some o.
Proof.
  intros Ho.
  pose proof (execute_runs_on fuel s) as H1.
  pose proof (resume_runs_on timers fuel (execute fuel s)) as H2.
  split.
  - apply (runs_on_onEnd _ _ H1). exact Ho.
  - apply (runs_on_onEnd _ _ H2), (runs_on_onEnd _ _ H1). exact Ho.
Qed.

(** An engine whose run was resolved, put back on a line that fails. *)
Lemma promise_settles_once_witness :
  let s := with_onEnd (Some Resolved) (with_lineno 10 (with_program
             [mkNode 10 (Do CReturn Ret)] (new_Basic ∅))) in
  onEnd (snd (execute 5 s)) = Some Resolved
  /\ onEnd (snd (resume 2 5 (execute 5 s))) = Some Resolved.
Proof.
  intros s. exact (promise_settles_once 2 5 s Resolved eq_refl).
Defined.

(** X5. The program and the table of constants are read only: whatever the
    statements do, a call of [execute] and the timer resumptions after it
    leave both as they were. *)
Theorem program_and_constants_stay (timers fuel : nat) (s : Basic) :
  program (snd (resume timers fuel (execute fuel s))) = program s
  /\ constants (snd (resume timers fuel (execute fuel s))) = constants s.
Proof.
  pose proof (execute_runs_on fuel s) as H1.
  pose proof (resume_runs_on timers fuel (execute fuel s)) as H2.
  split.
  - rewrite (runs_on_program _ _ H2). apply H1.
  - rewrite (runs_on_constants _ _ H2). apply H1.
Qed.


(** ** How [execute] returns *)

Lemma execute_loop_exits fuel : forall s,
  halted s = false -> settled s ->
  match execute_loop fuel s with
  | (Returned, s') =>
      (ended s' = true /\ is_Some (onEnd s'))
      \/ (ended s' = false /\ halted s' = true /\ jumped s' = false
          /\ pending_delay s' = None)
  | (Scheduled d, s') =>
      d <> 0 /\ delay s' = None /\ ended s' = false /\ jumped s' = false
  | (OutOfFuel, s') => halted s' = false
  end.
Proof.
  induction fuel as [| fuel IH]; intros s Hh Hs; simpl; [exact Hh |].
  pose proof (step_runs_on s) as Hstep.
  destruct (ended (step s)) eqn:He.
  { left. split; [exact He |]. apply (runs_on_settled _ _ Hstep Hs He). }
  destruct (advance (step s)) as [s2 |] eqn:Hadv.
  - destruct (advance_frame _ _ Hadv) as (Hd & Hh2 & He2 & Ho2 & _ & _ & Hj2).
    destruct (pending_delay s2) as [d |] eqn:Hpd.
    + simpl. repeat split; try congruence.
      unfold pending_delay in Hpd. destruct (delay s2) as [d' |]; [| discriminate].
      destruct (Z.eqb_spec d' 0); [discriminate |]. congruence.
    + destruct (halted s2) eqn:Hhalt.
      * right. repeat split; congruence.
      * apply IH; [exact Hhalt |].
        apply (runs_on_settled _ _ (advance_runs_on _ _ Hadv)).
        apply (runs_on_settled _ _ Hstep Hs).
  - left. split; [reflexivity | apply (end_settles None (step s))].
Qed.

(** X7. A call of [execute] on a run that has not ended comes back in one
    of three ways only.  Plainly, and then either the run has ended and its
    promise is settled, or a statement has halted it, with the jump
    consumed; or with a timer scheduled for a pause that is not zero, the
    pause cleared and the jump consumed; otherwise it is still looping. *)
Theorem execute_exits (fuel : nat) (s : Basic) :
  ended s = false ->
  match execute fuel s with
  | (Returned, s') =>
      (ended s' = true /\ is_Some (onEnd s'))
      \/ (ended s' = false /\ halted s' = true /\ jumped s' = false
          /\ pending_delay s' = None)
  | (Scheduled d, s') =>
      d <> 0 /\ delay s' = None /\ ended s' = false /\ jumped s' = false
  | (OutOfFuel, s') => halted s' = false
  end.
Proof.
  intros He. unfold execute. apply execute_loop_exits; [reflexivity |].
  unfold settled. simpl. congruence.
Qed.

(** The halting program, from its first line. *)
Lemma execute_exits_witness :
  let s := with_lineno 10 (with_program
             [mkNode 10 (Do CHalt Ret); mkNode 20 (Do (CPrint (SStr "B")) Ret)]
             (new_Basic ∅)) in
  match execute 5 s with
  | (Returned, s') =>
      (ended s' = true /\ is_Some (onEnd s'))
      \/ (ended s' = false /\ halted s' = true /\ jumped s' = false
          /\ pending_delay s' = None)
  | (Scheduled d, s') =>
      d <> 0 /\ delay s' = None /\ ended s' = false /\ jumped s' = false
  | (OutOfFuel, s') => halted s' = false
  end.
Proof.
  intros s. exact (execute_exits 5 s eq_refl).
Defined.

(** ** Loading a program *)

(** Ending a run that has ended and is settled changes nothing. *)
Lemma end_again err s :
  ended s = true -> is_Some (onEnd s) -> state_of (end_ err s) = s.
Proof.
  destruct s. unfold_methods. simpl. intros -> [o ->]. reflexivity.
Qed.

Lemma parse_all_after_end ps : forall s,
  ended s = true -> is_Some (onEnd s) -> snd (parse_all ps s) = s.
Proof.
  induction ps as [| [n | e] ps IH]; intros s He Ho; cbn [parse_all].
  - reflexivity.
  - specialize (IH s He Ho). destruct (parse_all ps s). exact IH.
  - rewrite (end_again _ _ He Ho). apply IH; assumption.
Qed.

Lemma parse_all_first_failure pre e rest s :
  snd (parse_all (List.map Parsed pre ++ Failed e :: rest) s)
  = state_of (end_ (Some e) s).
Proof.
  induction pre as [| n pre IH]; cbn [parse_all List.map app].
  - apply parse_all_after_end; [reflexivity | apply end_settles].
  - destruct (parse_all _ s). exact IH.
Qed.

(** X1. Loading fails fast.  When a line does not parse, [run] rejects the
    promise with the error of the first such line and returns before the
    check for repeated lines and before [execute]: no statement is run,
    nothing is printed, the variables and the cursor are as they were,
    whatever the other lines are. *)
Theorem run_fails_fast (fuel : nat) (pre : list Node) (e : error)
    (rest : list parsed) (s : Basic) :
  let r := run_parsed fuel (List.map Parsed pre ++ Failed e :: rest) s in
  fst r = Returned
  /\ ended (snd r) = true
  /\ onEnd (snd r) = Some (Rejected e)
  /\ trace (snd r) = trace s
  /\ console (snd r) = console s
  /\ variables (snd r) = variables s
  /\ lineno (snd r) = lineno s.
Proof.
  cbv zeta. unfold run_parsed.
  pose proof (parse_all_first_failure pre e rest
                (with_ended false (with_onEnd None s))) as H.
  destruct (parse_all _ (with_ended false (with_onEnd None s))) as [nodes s1].
  simpl in H. subst s1. simpl. auto 10.
Qed.

(** ** The order of the lines *)

Lemma ascending_StronglySorted p :
  ascending p ->
  StronglySorted (fun m n => node_lineno m < node_lineno n) p.
Proof.
  induction p as [| n p IH]; intros Hasc; constructor.
  - apply IH. unfold ascending in *. eapply increasing_tail; exact Hasc.
  - apply Forall_forall. intros m Hm.
    apply list_elem_of_lookup in Hm. destruct Hm as [j Hj].
    apply (ascending_lookup (n :: p) O (S j)); auto. lia.
Qed.

(** Two listings of the same statements are loaded as the same program. *)
Lemma sort_nodes_unique nodes1 nodes2 :
  NoDup (node_lineno <$> nodes1) -> nodes1 ≡ₚ nodes2 ->
  sort_nodes nodes1 = sort_nodes nodes2.
Proof.
  intros Hnd Hperm.
  assert (Hnd2 : NoDup (node_lineno <$> nodes2)) by (rewrite <- Hperm; exact Hnd).
  apply (StronglySorted_unique_strong (fun m n => node_lineno m < node_lineno n)).
  - intros x1 x2 _ _ H1 H2. lia.
  - apply ascending_StronglySorted, sort_nodes_ascending, Hnd.
  - apply ascending_StronglySorted, sort_nodes_ascending, Hnd2.
  - rewrite !sort_nodes_perm. exact Hperm.
Qed.

(** X3. The order of the lines in the text does not matter.  Two texts
    whose lines parse to the same statements, with no line number twice,
    are run in the same way from the same engine: same exit, same engine at
    the end. *)
Theorem line_order_is_irrelevant (fuel : nat) (nodes1 nodes2 : list Node)
    (s : Basic) :
  NoDup (node_lineno <$> nodes1) ->
  nodes1 ≡ₚ nodes2 ->
  run_parsed fuel (List.map Parsed nodes1) s
  = run_parsed fuel (List.map Parsed nodes2) s.
Proof.
  intros Hnd Hperm. unfold run_parsed. rewrite !parse_all_parsed.
  rewrite (sort_nodes_unique _ _ Hnd Hperm). reflexivity.
Qed.

(** The lines of [sparse_lines], listed from last to first. *)
Lemma line_order_is_irrelevant_witness :
  run_parsed 10 (List.map Parsed sparse_lines) (new_Basic ∅)
  = run_parsed 10 (List.map Parsed (reverse sparse_lines)) (new_Basic ∅).
Proof.
  refine (line_order_is_irrelevant 10 sparse_lines (reverse sparse_lines)
            (new_Basic ∅) _ _).
  - refine (bool_decide_unpack _ _). vm_compute. exact I.
  - symmetry. apply reverse_Permutation.
Defined.

(** ** The empty program *)

Lemma split_lines_blank text :
  not_blank text = false ->
  Forall (fun l => not_blank l = false) (split_lines text).
Proof.
  induction text as [| c text IH]; intros H; simpl.
  - repeat constructor.
  - simpl in H. destruct (is_space c) eqn:Hc; [| discriminate].
    specialize (IH H).
    destruct (Ascii.eqb c newline).
    + constructor; [reflexivity | exact IH].
    + destruct (split_lines text) as [| l ls].
      * constructor; [simpl; rewrite Hc; reflexivity | constructor].
      * inversion IH; subst. constructor; [simpl; rewrite Hc; assumption | assumption].
Qed.

Lemma filter_not_blank ls :
  Forall (fun l => not_blank l = false) ls -> List.filter not_blank ls = [].
Proof.
  induction 1 as [| l ls Hl _ IH]; simpl; [reflexivity |].
  rewrite Hl. exact IH.
Qed.



(** ** Jumps *)

(** What [execute] does after its first step only adds to it. *)
Lemma execute_loop_from_step fuel s :
  runs_on (step s) (snd (execute_loop (S fuel) s)).
Proof.
  simpl. destruct (ended (step s)); [apply runs_on_refl |].
  destruct (advance (step s)) as [s2 |] eqn:Hadv.
  - pose proof (advance_runs_on _ _ Hadv) as Hadv'.
    destruct (pending_delay s2).
    + simpl. eapply runs_on_trans; [exact Hadv' | solve_runs_on].
    + destruct (halted s2); simpl; [exact Hadv' |].
      eapply runs_on_trans; [exact Hadv' | apply execute_loop_runs_on].
  - exact (end_runs_on None (step s)).
Qed.

(** The second turn of the loop after a statement that has jumped, with no
    pause and no halt. *)
Lemma execute_loop_jumped fuel s :
  ended (step s) = false ->
  jumped (step s) = true ->
  pending_delay (step s) = None ->
  halted (step s) = false ->
  execute_loop (S fuel) s = execute_loop fuel (with_jumped false (step s)).
Proof.
  intros He Hj Hd Hh. simpl. rewrite He. unfold advance. rewrite Hj.
  change (pending_delay (with_jumped false (step s))) with (pending_delay (step s)).
  rewrite Hd. simpl. rewrite Hh. reflexivity.
Qed.

(** After a statement that has jumped onto the line of a statement, that
    statement is run. *)
Lemma jumped_statement_then_target (fuel : nat) (s : Basic) (node target : Node) :
  getCurLine s = Some node ->
  let s1 := step (with_halted false s) in
  ended s1 = false ->
  jumped s1 = true ->
  pending_delay s1 = None ->
  halted s1 = false ->
  getCurLine s1 = Some target ->
  (trace s ++ [node_lineno node; node_lineno target])%list
    `prefix_of` trace (snd (execute (S (S fuel)) s)).
Proof.
  intros Hcur s1 He Hj Hd Hh Htarget. unfold execute.
  rewrite (execute_loop_jumped _ _ He Hj Hd Hh). fold s1.
  assert (Hcur' : getCurLine (with_halted false s) = Some node) by exact Hcur.
  pose proof (step_keeps _ _ Hcur') as Hk. fold s1 in Hk.
  assert (Ht2 : getCurLine (with_jumped false s1) = Some target) by exact Htarget.
  pose proof (step_keeps _ _ Ht2) as Hk2.
  pose proof (execute_loop_from_step fuel (with_jumped false s1)) as Hrest.
  etransitivity; [| apply (runs_on_trace _ _ Hrest)].
  rewrite (keeps_trace _ _ Hk2). simpl.
  rewrite (keeps_trace _ _ Hk). simpl.
  rewrite <- app_assoc. reflexivity.
Qed.


(** X9. A jump is carried out by the run loop.  When a statement has set
    [jumped] (by [goto], [gosub], [return] or [loopJump]) without ending the
    run, pausing or halting, and the cursor it leaves is the line of a
    statement, that statement is the next one to be run: the automatic
    advance to the following line is skipped. *)
Theorem jump_runs_target_next (fuel : nat) (s : Basic) (node target : Node) :
  getCurLine s = Some node ->
  let s1 := step (with_halted false s) in
  ended s1 = false ->
  jumped s1 = true ->
  pending_delay s1 = None ->
  halted s1 = false ->
  getCurLine s1 = Some target ->
  (trace s ++ [node_lineno node; node_lineno target])%list
    `prefix_of` trace (snd (execute (S (S fuel)) s)).
Proof. exact (jumped_statement_then_target fuel s node target). Qed.

(** Line 10 jumps over line 20 to line 30. *)
Lemma jump_runs_target_next_witness :
  let node := mkNode 10 (Do (CGoto 30) Ret) in
  let target := mkNode 30 (Do (CPrint (SStr "c")) Ret) in
  let s := with_lineno 10 (with_program
             [node; mkNode 20 (Do (CPrint (SStr "b")) Ret); target]
             (new_Basic ∅)) in
  [10; 30] `prefix_of` trace (snd (execute 2 s)).
Proof.
  intros node target s.
  exact (jump_runs_target_next 0 s node target eq_refl eq_refl eq_refl
           eq_refl eq_refl eq_refl).
Defined.

(** X8. A jump to a line that the program does not have ends the run.  The
    statement that jumps completes; the next turn of the loop finds no
    statement at the cursor and rejects the promise with a [RuntimeError]
    on the missing line number.  No statement is run after the jump. *)
Theorem jump_to_missing_line (fuel : nat) (s : Basic) (node : Node) :
  getCurLine s = Some node ->
  onEnd s = None ->
  let s1 := step (with_halted false s) in
  ended s1 = false ->
  jumped s1 = true ->
  pending_delay s1 = None ->
  halted s1 = false ->
  getCurLine s1 = None ->
  exists s',
    execute (S (S fuel)) s = (Returned, s')
    /\ ended s' = true
    /\ onEnd s' = Some (Rejected (RuntimeError (lineno s1)
                     ("Cannot find line " ++ pretty (lineno s1) ++ " 🤦‍♂️")))
    /\ trace s' = (trace s ++ [node_lineno node])%list.
Proof.
  intros Hcur Hpend s1 He Hj Hd Hh Hnone. unfold execute.
  rewrite (execute_loop_jumped _ _ He Hj Hd Hh). fold s1.
  assert (Hcur' : getCurLine (with_halted false s) = Some node) by exact Hcur.
  pose proof (step_keeps _ _ Hcur') as Hk. fold s1 in Hk.
  assert (Hon : onEnd s1 = None).
  { apply (keeps_pending _ _ Hk); [intros _; exact Hpend | exact He]. }
  assert (Hstep : step (with_jumped false s1)
            = state_of (end_ (Some (RuntimeError (lineno s1)
                ("Cannot find line " ++ pretty (lineno s1) ++ " 🤦‍♂️")))
                (with_jumped false s1))).
  { unfold step.
    change (getCurLine (with_jumped false s1)) with (getCurLine s1).
    rewrite Hnone. reflexivity. }
  eexists. split.
  - apply execute_loop_ended. rewrite Hstep. reflexivity.
  - rewrite Hstep. unfold_methods. simpl. rewrite Hon.
    split; [reflexivity |]. split; [reflexivity |].
    rewrite (keeps_trace _ _ Hk). reflexivity.
Qed.

(** Line 10 jumps to line 15 of a program with the lines 10 and 20. *)
Lemma jump_to_missing_line_witness :
  let node := mkNode 10 (Do (CGoto 15) Ret) in
  let s := with_lineno 10 (with_program
             [node; mkNode 20 (Do (CPrint (SStr "b")) Ret)] (new_Basic ∅)) in
  exists s',
    execute 2 s = (Returned, s')
    /\ ended s' = true
    /\ onEnd s' = Some (Rejected (RuntimeError 15 "Cannot find line 15 🤦‍♂️"))
    /\ trace s' = [10].
Proof.
  intros node s.
  exact (jump_to_missing_line 0 s node eq_refl eq_refl eq_refl eq_refl
           eq_refl eq_refl eq_refl).
Defined.

(** ** Calls and returns *)

Lemma find_absent l p :
  (forall n, n ∈ p -> node_lineno n <> l) ->
  List.find (fun n => Z.eqb (node_lineno n) l) p = None.
Proof.
  induction p as [| m p IH]; intros H; simpl; [reflexivity |].
  destruct (Z.eqb_spec (node_lineno m) l) as [E | _].
  - exfalso. apply (H m); [left | exact E].
  - apply IH. intros n Hn. apply H. right. exact Hn.
Qed.

(** No line of a loaded program lies above its last line. *)
Lemma last_line_greatest p final n :
  ascending p -> last p = Some final -> n ∈ p ->
  node_lineno n <= node_lineno final.
Proof.
  intros Hasc Hlast Hn. rewrite last_lookup in Hlast.
  apply list_elem_of_lookup in Hn. destruct Hn as [j Hj].
  pose proof (lookup_lt_Some _ _ _ Hj) as Hlt.
  destruct (decide (j = pred (length p))) as [-> | Hne].
  - rewrite Hlast in Hj. inversion Hj. lia.
  - pose proof (ascending_lookup p j (pred (length p)) n final Hasc Hj Hlast). lia.
Qed.

(** X10. A subroutine called from the last line of the program cannot
    return.  [gosub] pushes the last line number plus one, which is no line
    of the program; the [return] that pops it moves the cursor there, and
    the next turn of the run loop ends the run with a [RuntimeError] on that
    line number. *)
Theorem gosub_on_last_line (s : Basic) (final : Node) (target : Z) :
  ascending (program s) ->
  last (program s) = Some final ->
  lineno s = node_lineno final ->
  stack (state_of (gosub target s)) = (stack s ++ [lineno s + 1])%list
  /\ (forall u, stack u = (stack s ++ [lineno s + 1])%list ->
        program u = program s ->
        let u' := state_of (return_ u) in
        lineno u' = lineno s + 1
        /\ stack u' = stack s
        /\ getCurLine u' = None
        /\ (onEnd u = None ->
            onEnd (step u') = Some (Rejected (RuntimeError (lineno s + 1)
              ("Cannot find line " ++ pretty (lineno s + 1) ++ " 🤦‍♂️"))))).
Proof.
  intros Hasc Hlast Hl.
  destruct (last_line_no_next s final Hasc Hlast Hl) as [_ Hnext].
  split.
  - rewrite gosub_pushes, Hnext. reflexivity.
  - intros u Hu Hp u'. subst u'. rewrite (return_pops u _ _ Hu). simpl.
    assert (Hnone : getCurLine (with_jumped true (with_lineno (lineno s + 1)
                       (with_stack (stack s) u))) = None).
    { unfold getCurLine. simpl. rewrite Hp. apply find_absent.
      intros n Hn. pose proof (last_line_greatest _ _ _ Hasc Hlast Hn). lia. }
    split; [reflexivity |]. split; [reflexivity |]. split; [exact Hnone |].
    intros Hpend. unfold step. rewrite Hnone. unfold_methods. simpl.
    rewrite Hpend. reflexivity.
Qed.

(** A call on line 20, the last line, with the subroutine on line 10. *)
Lemma gosub_on_last_line_witness :
  let s := with_lineno 20 (with_program
             [mkNode 10 (Do CReturn Ret); mkNode 20 (Do (CGosub 10) Ret)]
             (new_Basic ∅)) in
  stack (state_of (gosub 10 s)) = [21]
  /\ (forall u, stack u = [21] -> program u = program s ->
        let u' := state_of (return_ u) in
        lineno u' = 21
        /\ stack u' = []
        /\ getCurLine u' = None
        /\ (onEnd u = None ->
            onEnd (step u') = Some (Rejected (RuntimeError 21
              ("Cannot find line " ++ pretty 21 ++ " 🤦‍♂️"))))).
Proof.
  intros s.
  exact (gosub_on_last_line s (mkNode 20 (Do (CGosub 10) Ret)) 10
           eq_refl eq_refl eq_refl).
Defined.

Lemma unwind_stack addresses : forall s st,
  stack s = (st ++ addresses)%list ->
  let r := unwind (length addresses) s in
  fst r = reverse addresses
  /\ stack (snd r) = st
  /\ ended (snd r) = ended s
  /\ onEnd (snd r) = onEnd s
  /\ variables (snd r) = variables s.
Proof.
  induction addresses as [| a addresses IH] using rev_ind; intros s st Hst.
  - simpl. rewrite app_nil_r in Hst. auto.
  - rewrite length_app, Nat.add_comm. cbn [length Nat.add unwind].
    rewrite (return_pops s (st ++ addresses) a)
      by (rewrite Hst, app_assoc; reflexivity).
    cbn [state_of].
    specialize (IH (with_jumped true (with_lineno a
                      (with_stack (st ++ addresses) s))) st eq_refl).
    cbv zeta in IH.
    destruct (unwind (length addresses) _) as [ls s''].
    simpl in *. destruct IH as (Hls & Hs & He & Ho & Hv).
    rewrite reverse_snoc, Hls. auto.
Qed.

(** X11. The call stack is last in, first out.  With the return addresses
    [addresses] on top of the stack, pushed in that order, as many returns
    move the cursor to those addresses in the reverse order and leave the
    stack below them untouched; none of them ends the run. *)
Theorem returns_unwind_in_reverse (s0 : Basic) (st addresses : list Z) :
  let r := unwind (length addresses) (with_stack (st ++ addresses) s0) in
  fst r = reverse addresses
  /\ stack (snd r) = st
  /\ ended (snd r) = ended s0
  /\ onEnd (snd r) = onEnd s0.
Proof.
  destruct (unwind_stack addresses (with_stack (st ++ addresses) s0) st eq_refl)
    as (H1 & H2 & H3 & H4 & _).
  cbv zeta. auto.
Qed.

(** ** Counted loops *)

Lemma loopStart_next variable initial increment max s next :
  getNextLine s = Some next ->
  loopStart variable initial increment max s =
  Normal tt (with_loops (<[variable :=
               mkLoop variable initial increment max (node_lineno next)]>)
            (with_variables (<[variable := VNum initial]>) s)).
Proof.
  intros H. unfold_methods. simpl.
  change (getNextLine (with_variables <[variable:=VNum initial]> s))
    with (getNextLine s).
  rewrite H. reflexivity.
Qed.



(** X13. Loops on different variables do not disturb each other: starting
    or jumping the loop on [a] changes neither the descriptor nor the value
    of another variable [b]. *)
Theorem loops_are_independent (a b : string) (t : Basic) :
  a <> b ->
  (forall initial increment max,
     let t' := state_of (loopStart a initial increment max t) in
     loops t' !! b = loops t !! b /\ variables t' !! b = variables t !! b)
  /\ (forall d, loops t !! a = Some d -> loop_variable d = a ->
      let t' := state_of (loopJump a t) in
      loops t' !! b = loops t !! b /\ variables t' !! b = variables t !! b).
Proof.
  intros Hab. split.
  - intros initial increment max. cbv zeta. unfold_methods. simpl.
    change (getNextLine (with_variables <[a:=VNum initial]> t)) with (getNextLine t).
    destruct (getNextLine t); simpl; rewrite ?lookup_insert_ne by exact Hab; auto.
  - intros d Hd Hv. cbv zeta. rewrite (loopJump_found a d t Hd). rewrite Hv.
    destruct (Z.ltb _ _); simpl; rewrite !lookup_insert_ne by exact Hab; auto.
Qed.

(** An outer loop on [I] and an inner loop on [J]. *)
Lemma loops_are_independent_witness :
  let t := with_loops (<["J" := mkLoop "J" 0 1 3 30]>)
             (with_loops (<["I" := mkLoop "I" 0 1 3 20]>) (new_Basic ∅)) in
  loops (state_of (loopJump "J" t)) !! "I" = Some (mkLoop "I" 0 1 3 20)
  /\ variables (state_of (loopJump "J" t)) !! "I" = None.
Proof.
  intros t.
  refine (proj2 (loops_are_independent "J" "I" t _) (mkLoop "J" 0 1 3 30) eq_refl eq_refl).
  discriminate.
Defined.

(** ** Array cells *)




(** ** Constants *)

Lemma asks_keeps k s q t : asks k s q t -> keeps s t /\ runs_on s t.
Proof.
  induction 1 as [q k s | c0 k s s' q t Hc _ IH | q0 k s v s' q t Hq _ IH].
  - split; [apply keeps_refl | apply runs_on_refl].
  - pose proof (perform_keeps c0 s) as Hk. pose proof (perform_runs_on c0 s) as Hr.
    rewrite Hc in Hk, Hr. destruct IH as [IHk IHr].
    split; [eapply keeps_trans | eapply runs_on_trans]; eauto.
  - pose proof (answer_keeps q0 s) as Hk. pose proof (answer_runs_on q0 s) as Hr.
    rewrite Hq in Hk, Hr. destruct IH as [IHk IHr].
    split; [eapply keeps_trans | eapply runs_on_trans]; eauto.
Qed.

Lemma caught_asks k s q t :
  asks k s q t -> exists k', caught k s = caught (Ask q k') t.
Proof.
  induction 1 as [q k s | c0 k s s' q t Hc _ IH | q0 k s v s' q t Hq _ IH].
  - exists k. reflexivity.
  - destruct IH as [k' IH]. exists k'. rewrite <- IH.
    unfold caught, try_catch. simpl. unfold mbind, M_bind. rewrite Hc. reflexivity.
  - destruct IH as [k' IH]. exists k'. rewrite <- IH.
    unfold caught, try_catch. simpl. unfold mbind, M_bind. rewrite Hq. reflexivity.
Qed.

Lemma getConst_unknown c t :
  constants t !! c = None ->
  getConst c t = Normal (VScalar SUndefined)
                   (state_of (end_ (Some (RuntimeError (lineno t)
                      ("Constant " ++ c ++ " is undefined"))) t)).
Proof. intros H. unfold_methods. simpl. rewrite H. reflexivity. Qed.

(** X16. Constants.  A name of the table reads as its value and changes
    nothing.  When a statement asks for a name that the table, as the
    engine was constructed with it, does not have, [getConst] ends the run
    with a [RuntimeError] and hands [undefined] to the statement; the
    statement goes on with it, but the run is over: the promise is rejected
    with that error and no later statement is run. *)
Theorem getConst_lookup (fuel : nat) (s t : Basic) (c : string) :
  (forall v, constants t !! c = Some v -> getConst c t = Normal v t)
  /\ (queries s (QGetConst c) t ->
      constants s !! c = None ->
      onEnd t = None ->
      let e := RuntimeError (lineno t) ("Constant " ++ c ++ " is undefined") in
      getConst c t = Normal (VScalar SUndefined) (state_of (end_ (Some e) t))
      /\ exists s', execute (S fuel) s = (Returned, s')
           /\ ended s' = true
           /\ onEnd s' = Some (Rejected e)
           /\ trace s' = (trace s ++ [lineno s])%list).
Proof.
  split.
  - intros v H. unfold_methods. simpl. rewrite H. reflexivity.
  - intros (node & Hcur & Ha) Hnone Hpend e.
    destruct (asks_keeps _ _ _ _ Ha) as [Hk Hr].
    assert (Hnone' : constants t !! c = None).
    { rewrite (runs_on_constants _ _ Hr). exact Hnone. }
    split; [apply getConst_unknown; exact Hnone' |].
    destruct (caught_asks _ _ _ _ Ha) as [k' Hk'].
    assert (Hcur' : getCurLine (with_halted false s) = Some node) by exact Hcur.
    assert (Hrest : caught (Ask (QGetConst c) k') t
                    = caught (k' (VScalar SUndefined)) (state_of (end_ (Some e) t))).
    { unfold caught, try_catch. simpl. unfold mbind, M_bind.
      rewrite (getConst_unknown _ _ Hnone'). reflexivity. }
    pose proof (caught_keeps (k' (VScalar SUndefined)) (state_of (end_ (Some e) t)))
      as Hafter.
    assert (He : ended (step (with_halted false s)) = true).
    { rewrite (step_found _ _ Hcur'), Hk', Hrest.
      apply (keeps_ended _ _ Hafter). reflexivity. }
    exists (step (with_halted false s)). unfold execute.
    rewrite (execute_loop_ended _ _ He).
    split; [reflexivity |]. split; [exact He |].
    rewrite (step_found _ _ Hcur'), Hk', Hrest. split.
    + apply (keeps_onEnd _ _ Hafter). unfold_methods. simpl. rewrite Hpend. reflexivity.
    + rewrite (keeps_trace _ _ Hafter). simpl. rewrite (keeps_trace _ _ Hk). simpl.
      rewrite (getCurLine_lineno _ _ Hcur). reflexivity.
Qed.

(** A statement that asks for the constant [E] and stores what it gets, on
    an engine whose table has [LEVEL] only. *)
Lemma getConst_lookup_witness :
  let node := mkNode 10 (Ask (QGetConst "E") (fun v => Do (CSet "X" v) Ret)) in
  let s := with_lineno 10 (with_program [node; mkNode 20 Ret]
             (new_Basic {["LEVEL" := VNum 1]})) in
  let e := RuntimeError 10 "Constant E is undefined" in
  getConst "E" (enter node s)
    = Normal (VScalar SUndefined) (state_of (end_ (Some e) (enter node s)))
  /\ exists s', execute 1 s = (Returned, s')
       /\ ended s' = true
       /\ onEnd s' = Some (Rejected e)
       /\ trace s' = [10].
Proof.
  intros node s.
  refine (proj2 (getConst_lookup 0 s (enter node (with_halted false s)) "E")
            _ eq_refl eq_refl).
  exists node. split; [reflexivity | apply asks_here].
Defined.

(** ** Failing by [end] and failing by [throw] *)

Lemma perform_thrown c t e t' :
  perform c t = Thrown e t' ->
  t' = t
  /\ ((exists name, c = CLoopJump name /\ loops t !! name = None)
      \/ c = CPrint SUndefined \/ c = CPrint SNull).
Proof.
  destruct c; unfold_methods; simpl; try discriminate.
  - destruct (variables t !! vari) as [[x | cells] |]; discriminate.
  - destruct (getNextLine _); discriminate.
  - destruct (loops t !! name) as [loop |] eqn:Hl.
    + simpl. destruct (Z.leb _ _); discriminate.
    + intros H. inversion H. subst. split; [reflexivity |]. left. exists name.
      split; [reflexivity | exact Hl].
  - destruct (getNextLine t); discriminate.
  - destruct (last (stack t)); discriminate.
  - destruct s; try discriminate; intros H; inversion H; auto.
Qed.


(** ** The display *)

(** X19. The graphics methods need a display.  On an engine constructed
    without one, [plot], [color], [clearGraphics] and [getChar] first end
    the run with the [RuntimeError] "No display found" and then throw a
    [TypeError] from the call on the missing display; the promise keeps the
    [RuntimeError], also after [step] has caught the [TypeError].  With a
    display they return what the display returns and leave the engine as
    it is, and [getChar] gives the empty string for a key that is falsy. *)
Theorem display_is_required (s : Basic) (x y : Z) (c : value) :
  onEnd s = None ->
  let e := RuntimeError (lineno s) "No display found" in
  let failed := state_of (end_ (Some e) s) in
  (exists m, plot None x y c s = Thrown (TypeError m) failed)
  /\ (exists m, color None x y s = Thrown (TypeError m) failed)
  /\ (exists m, clearGraphics None s = Thrown (TypeError m) failed)
  /\ (exists m, getChar None s = Thrown (TypeError m) failed)
  /\ onEnd failed = Some (Rejected e)
  /\ onEnd (state_of (try_catch (plot None x y c) (fun e' => end_ (Some e')) s))
     = Some (Rejected e)
  /\ (forall d,
        plot (Some d) x y c s = Normal tt s
        /\ color (Some d) x y s = Normal (display_color d x y) s
        /\ clearGraphics (Some d) s = Normal tt s
        /\ exists key, getChar (Some d) s = Normal key s
             /\ (truthy key = true \/ key = VStr "")).
Proof.
  intros Hpend e failed. subst e failed.
  unfold plot, color, clearGraphics, getChar, assertDisplay, on_display.
  unfold_methods. simpl. rewrite Hpend. simpl.
  split; [eexists; reflexivity |]. split; [eexists; reflexivity |].
  split; [eexists; reflexivity |]. split; [eexists; reflexivity |].
  split; [reflexivity |]. split; [reflexivity |].
  intros d. split; [reflexivity |]. split; [reflexivity |]. split; [reflexivity |].
  eexists. split; [reflexivity |].
  destruct (truthy (display_getChar d)) eqn:E; auto.
Qed.

(** A fresh engine, constructed without a display. *)
Lemma display_is_required_witness :
  let s := with_lineno 10 (new_Basic ∅) in
  let e := RuntimeError 10 "No display found" in
  onEnd (state_of (try_catch (plot None 1 2 (VNum 3)) (fun e' => end_ (Some e')) s))
  = Some (Rejected e).
Proof.
  intros s.
  exact (proj1 (proj2 (proj2 (proj2 (proj2 (proj2
           (display_is_required s 1 2 (VNum 3) eq_refl))))))).
Defined.

(** ** Whole runs *)

(** A run of a program without repeated lines, from the first step on. *)
Lemma run_parsed_unique nodes fuel s :
  NoDup (node_lineno <$> nodes) ->
  run_parsed fuel (List.map Parsed nodes) s =
  let s2 := with_program (sort_nodes nodes) (with_ended false (with_onEnd None s)) in
  match sort_nodes nodes with
  | [] => (Returned, state_of (end_ None s2))
  | first :: _ => execute fuel (with_lineno (node_lineno first) s2)
  end.
Proof.
  intros Hnd. unfold run_parsed. rewrite parse_all_parsed. simpl ended. cbv iota.
  rewrite check_repeated_ascending;
    [| apply sort_nodes_ascending; exact Hnd | intros l n Hl; exfalso; set_solver].
  reflexivity.
Qed.

(** X21. A run starts on the least line number.  For a program with no line
    number twice and at least one line, the first statement that [run]
    executes is the one with the least line number, wherever its line is in
    the text. *)
Theorem run_starts_at_least_line (fuel : nat) (nodes : list Node) (s : Basic) :
  NoDup (node_lineno <$> nodes) ->
  nodes <> [] ->
  exists first,
    first ∈ nodes
    /\ (forall n, n ∈ nodes -> node_lineno first <= node_lineno n)
    /\ (trace s ++ [node_lineno first])%list
         `prefix_of` trace (snd (run_parsed (S fuel) (List.map Parsed nodes) s)).
Proof.
  intros Hnd Hne. rewrite (run_parsed_unique _ _ _ Hnd). cbv zeta.
  pose proof (sort_nodes_ascending nodes Hnd) as Hasc.
  pose proof (sort_nodes_perm nodes) as Hperm.
  destruct (sort_nodes nodes) as [| first rest] eqn:Hsort.
  { exfalso. apply Hne. apply Permutation_nil. exact Hperm. }
  exists first. split; [rewrite <- Hperm; left |]. split.
  - intros n Hn. rewrite <- Hperm in Hn. apply elem_of_cons in Hn.
    destruct Hn as [-> | Hn]; [lia |].
    apply list_elem_of_lookup in Hn. destruct Hn as [j Hj].
    pose proof (ascending_lookup (first :: rest) O (S j) first n Hasc eq_refl Hj). lia.
  - unfold execute.
    set (s4 := with_halted false (with_lineno (node_lineno first) _)).
    assert (Hcur : getCurLine s4 = Some first).
    { unfold getCurLine. simpl. rewrite Z.eqb_refl. reflexivity. }
    pose proof (step_keeps _ _ Hcur) as Hk.
    etransitivity; [| apply (runs_on_trace _ _ (execute_loop_from_step fuel s4))].
    rewrite (keeps_trace _ _ Hk). reflexivity.
Qed.

(** The lines 30, 10, 25 of [sparse_lines]: line 10 is run first. *)
Lemma run_starts_at_least_line_witness :
  exists first,
    first ∈ sparse_lines
    /\ (forall n, n ∈ sparse_lines -> node_lineno first <= node_lineno n)
    /\ ([] ++ [node_lineno first])%list
         `prefix_of` trace (snd (run_parsed 1 (List.map Parsed sparse_lines)
                                   (new_Basic ∅))).
Proof.
  refine (run_starts_at_least_line 0 sparse_lines (new_Basic ∅) _ _).
  - refine (bool_decide_unpack _ _). vm_compute. exact I.
  - discriminate.
Defined.

(** A plain statement runs to its end and touches nothing of the run loop:
    only variables and output change. *)
Lemma plain_runs k :
  plain k -> forall s,
  exists s', runScript k s = Normal tt s'
    /\ program s' = program s /\ lineno s' = lineno s /\ jumped s' = jumped s
    /\ delay s' = delay s /\ halted s' = halted s /\ ended s' = ended s
    /\ onEnd s' = onEnd s /\ trace s' = trace s /\ stack s' = stack s
    /\ loops s' = loops s.
Proof.
  induction 1 as [| vari v k _ IH | name k _ IH | x k Hu Hn _ IH | vari k _ IH];
    intros s; simpl; unfold mbind, M_bind.
  - eexists. split; [reflexivity |]. auto 15.
  - destruct (IH (state_of (set vari v s))) as (s' & Hr & H).
    exists s'. split; [exact Hr | exact H].
  - destruct (IH (state_of (array name s))) as (s' & Hr & H).
    exists s'. split; [exact Hr | exact H].
  - destruct x; try contradiction;
      match goal with
      | |- context [print ?x s] =>
          destruct (IH (state_of (print x s))) as (s' & Hr & H);
          exists s'; split; [exact Hr | exact H]
      end.
  - destruct (IH (or_zero (variables s !! vari)) s) as (s' & Hr & H).
    exists s'. split; [exact Hr | exact H].
Qed.

Section PlainProgram.

Variable p : list Node.
Hypothesis Hasc : ascending p.
Hypothesis Hplain : forall n, n ∈ p -> plain (node_run n).

(** From line [i] on, the run loop runs every remaining line and ends. *)
Lemma execute_loop_plain : forall fuel s i n,
  program s = p -> p !! i = Some n -> lineno s = node_lineno n ->
  jumped s = false -> ended s = false -> onEnd s = None ->
  halted s = false -> pending_delay s = None ->
  (length p - i <= fuel)%nat ->
  exists s', execute_loop fuel s = (Returned, s')
    /\ ended s' = true /\ onEnd s' = Some Resolved
    /\ trace s' = (trace s ++ drop i (node_lineno <$> p))%list.
Proof.
  induction fuel as [| fuel IH]; intros s i n Hp Hi Hl Hj He Ho Hh Hd Hfuel.
  { pose proof (lookup_lt_Some _ _ _ Hi). lia. }
  assert (Hasc' : ascending (program s)) by (rewrite Hp; exact Hasc).
  assert (Hi' : program s !! i = Some n) by (rewrite Hp; exact Hi).
  destruct (cursor_lines s i n Hasc' Hi' Hl) as [Hcur Hnext].
  assert (Hn : plain (node_run n)).
  { apply Hplain. apply list_elem_of_lookup. eauto. }
  destruct (plain_runs (node_run n) Hn (enter n s))
    as (s1 & Hrun & Hp1 & Hl1 & Hj1 & Hd1 & Hh1 & He1 & Ho1 & Ht1 & _).
  assert (Hstep : step s = s1).
  { rewrite (step_found _ _ Hcur). unfold caught, try_catch. rewrite Hrun. reflexivity. }
  simpl in Hp1, Hl1, Hj1, Hd1, Hh1, He1, Ho1, Ht1.
  assert (Hdrop : drop i (node_lineno <$> p)
                  = node_lineno n :: drop (S i) (node_lineno <$> p)).
  { apply drop_S. rewrite list_lookup_fmap, Hi. reflexivity. }
  assert (Hnext1 : getNextLine s1 = p !! S i).
  { unfold getNextLine. rewrite Hp1, Hl1, <- Hp. exact Hnext. }
  simpl execute_loop. rewrite Hstep.
  replace (ended s1) with false by congruence.
  unfold advance. replace (jumped s1) with false by congruence. rewrite Hnext1.
  destruct (p !! S i) as [next |] eqn:Hsi.
  - assert (Hd2 : pending_delay (with_lineno (node_lineno next) s1) = None).
    { unfold pending_delay in *. simpl. rewrite Hd1. exact Hd. }
    rewrite Hd2. simpl halted. replace (halted s1) with false by congruence.
    destruct (IH (with_lineno (node_lineno next) s1) (S i) next)
      as (s' & Hex & He' & Ho' & Ht'); simpl; try congruence.
    { pose proof (lookup_lt_Some _ _ _ Hsi). lia. }
    exists s'. split; [exact Hex |]. split; [exact He' |]. split; [exact Ho' |].
    rewrite Ht'. simpl. rewrite Ht1, Hdrop, <- app_assoc. reflexivity.
  - eexists. split; [reflexivity |]. unfold_methods. simpl.
    rewrite Ho1, Ho. split; [reflexivity |]. split; [reflexivity |].
    rewrite Ht1, Hdrop. rewrite (drop_ge _ (S i)); [reflexivity |].
    rewrite length_fmap. apply lookup_ge_None. exact Hsi.
Qed.

End PlainProgram.



(** X20. [run] does not clear a jump that an earlier run has left.  On an
    engine whose last run ended inside a statement that had jumped,
    [jumped] is still set; the first statement of the next program then
    counts as a jump to its own line, and when it makes no jump itself and
    neither ends the run, pauses nor halts, it is run twice. *)
Theorem rerun_repeats_first_statement (fuel : nat) (nodes : list Node)
    (first : Node) (s : Basic) :
  NoDup (node_lineno <$> nodes) ->
  head (sort_nodes nodes) = Some first ->
  jump_free (node_run first) ->
  jumped s = true ->
  let start := with_lineno (node_lineno first)
                 (with_program (sort_nodes nodes)
                    (with_ended false (with_onEnd None s))) in
  let s1 := step (with_halted false start) in
  ended s1 = false ->
  pending_delay s1 = None ->
  halted s1 = false ->
  (trace s ++ [node_lineno first; node_lineno first])%list
    `prefix_of` trace (snd (run_parsed (S (S fuel)) (List.map Parsed nodes) s)).
Proof.
  intros Hnd Hhead Hfree Hj start s1 He Hd Hh.
  rewrite (run_parsed_unique _ _ _ Hnd). cbv zeta.
  destruct (sort_nodes nodes) as [| first' rest] eqn:Hsort; [discriminate |].
  simpl in Hhead. inversion Hhead. subst first'.
  assert (Hcur : getCurLine start = Some first).
  { unfold getCurLine. simpl. rewrite Z.eqb_refl. reflexivity. }
  assert (Hcur' : getCurLine (with_halted false start) = Some first) by exact Hcur.
  destruct (caught_jump_free (node_run first)
              (enter first (with_halted false start)) Hfree) as [Hj1 Hl1].
  rewrite <- (step_found _ _ Hcur') in Hj1, Hl1. simpl in Hj1, Hl1.
  fold s1 in Hj1, Hl1.
  pose proof (step_keeps _ _ Hcur') as Hk. fold s1 in Hk.
  assert (Htarget : getCurLine s1 = Some first).
  { unfold getCurLine. rewrite (keeps_program _ _ Hk), Hl1. simpl.
    rewrite Z.eqb_refl. reflexivity. }
  apply (jumped_statement_then_target fuel start first first Hcur He
           (eq_trans Hj1 Hj) Hd Hh Htarget).
Qed.

(** The engine that the run of [jump_and_fail] leaves, given two printing
    lines to run next. *)
Lemma rerun_repeats_first_statement_witness :
  let s := snd (run_parsed 5 jump_and_fail (new_Basic ∅)) in
  let nodes := [mkNode 20 (Do (CPrint (SStr "b")) Ret);
                mkNode 10 (Do (CPrint (SStr "a")) Ret)] in
  jumped s = true
  /\ (trace s ++ [10; 10])%list
       `prefix_of` trace (snd (run_parsed 2 (List.map Parsed nodes) s)).
Proof.
  intros s nodes. split; [reflexivity |].
  refine (rerun_repeats_first_statement 0 nodes
            (mkNode 10 (Do (CPrint (SStr "a")) Ret)) s _ eq_refl _ eq_refl
            eq_refl eq_refl eq_refl).
  - refine (bool_decide_unpack _ _). vm_compute. exact I.
  - apply jump_free_do; [reflexivity | apply jump_free_ret].
Defined.

(** ** The current and the next line *)

(** X23. Finding lines in a loaded program.  With the cursor on the line at
    position [i], [getCurLine] is that statement and [getNextLine] the one
    at position [i + 1], none after the last.  With the cursor on a line
    number that the program does not have, [getCurLine] finds nothing and
    [getNextLine] is the first statement of the program, so that a [gosub]
    made there pushes the first line number. *)
Theorem next_line_cases (s : Basic) :
  ascending (program s) ->
  (forall i node, program s !! i = Some node -> lineno s = node_lineno node ->
     getCurLine s = Some node /\ getNextLine s = program s !! S i)
  /\ ((forall n, n ∈ program s -> node_lineno n <> lineno s) ->
      getCurLine s = None
      /\ getNextLine s = head (program s)
      /\ forall first target, head (program s) = Some first ->
           stack (state_of (gosub target s))
           = (stack s ++ [node_lineno first])%list).
Proof.
  intros Hasc. split.
  - intros i node Hi Hl. exact (cursor_lines s i node Hasc Hi Hl).
  - intros Habsent.
    assert (Hcur : getCurLine s = None) by (apply find_absent; exact Habsent).
    assert (Hnext : getNextLine s = head (program s)).
    { unfold getNextLine. rewrite (find_none_indexOfLine _ _ Hcur).
      destruct (program s); reflexivity. }
    split; [exact Hcur |]. split; [exact Hnext |].
    intros first target Hfirst. rewrite gosub_pushes, Hnext, Hfirst. reflexivity.
Qed.

(** The cursor on line 15 of a program with the lines 10 and 20. *)
Lemma next_line_cases_witness :
  let s := with_lineno 15 (with_program [mkNode 10 Ret; mkNode 20 Ret]
             (new_Basic ∅)) in
  getCurLine s = None
  /\ getNextLine s = Some (mkNode 10 Ret)
  /\ forall first target, Some (mkNode 10 Ret) = Some first ->
       stack (state_of (gosub target s)) = ([] ++ [node_lineno first])%list.
Proof.
  intros s. refine (proj2 (next_line_cases s eq_refl) _).
  intros n Hn. apply list_elem_of_In in Hn. simpl in Hn.
  destruct Hn as [<- | [<- | []]]; discriminate.
Defined.

(** ** Ending a run from a statement *)

(** X24. A statement ends the run by calling [end].  Without an error the
    promise is resolved, with an error it is rejected with that error; in
    both cases the rest of the statement is still carried out, [execute]
    returns after it and no later statement is run. *)
Theorem end_call_stops_run (fuel : nat) (s t : Basic) (err : option error) :
  calls s (CEnd err) t ->
  onEnd t = None ->
  exists s', execute (S fuel) s = (Returned, s')
    /\ ended s' = true
    /\ onEnd s' = Some (match err with
                        | Some e => Rejected e
                        | None => Resolved
                        end)
    /\ trace s' = (trace s ++ [lineno s])%list.
Proof.
  intros Hcalls Hpend.
  apply (execute_ends_at fuel s (CEnd err) t _ Hcalls).
  - rewrite caught_Do. reflexivity.
  - rewrite caught_Do. unfold_methods. simpl. rewrite Hpend. reflexivity.
Qed.

(** Line 10 prints and ends the program before line 20. *)
Lemma end_call_stops_run_witness :
  let node := mkNode 10 (Do (CPrint (SStr "a")) (Do (CEnd None) Ret)) in
  let s := with_lineno 10 (with_program
             [node; mkNode 20 (Do (CPrint (SStr "b")) Ret)] (new_Basic ∅)) in
  exists s', execute 1 s = (Returned, s')
    /\ ended s' = true
    /\ onEnd s' = Some Resolved
    /\ trace s' = [10].
Proof.
  intros node s.
  refine (end_call_stops_run 0 s
            (state_of (print (SStr "a") (enter node (with_halted false s))))
            None _ eq_refl).
  exists node. split; [reflexivity |].
  eapply reaches_do; [reflexivity | apply reaches_here].
Defined.

(** ** The variable environment *)



(** ** Pauses *)

(** X25. When a pause takes effect.  [pause(d)] records [d], the last call
    counting.  After a statement that leaves the delay [d] and the run
    going: if the cursor can move on and [d] is not zero, [execute] returns
    with a timer for [d] scheduled and the delay cleared, also when the
    statement has halted; a delay of zero suspends nothing; and when the
    statement is the last line and made no jump, the run ends at once,
    resolved, without waiting. *)
Theorem pause_takes_effect (fuel : nat) (s : Basic) (d : Z) :
  onEnd s = None ->
  let s1 := step (with_halted false s) in
  ended s1 = false ->
  delay s1 = Some d ->
  (forall t d', delay (state_of (pause d (state_of (pause d' t)))) = Some d)
  /\ match advance s1 with
     | Some s2 =>
         (d <> 0 -> execute (S fuel) s = (Scheduled d, with_delay None s2))
         /\ (d = 0 -> execute (S fuel) s
                      = if halted s2 then (Returned, s2) else execute_loop fuel s2)
     | None =>
         exists s', execute (S fuel) s = (Returned, s')
           /\ ended s' = true /\ onEnd s' = Some Resolved
     end.
Proof.
  intros Hpend s1 He Hd. split; [reflexivity |].
  assert (Hon : onEnd s1 = None).
  { pose proof (step_runs_on (with_halted false s)) as Hr. fold s1 in Hr.
    apply (runs_on_pending _ _ Hr); [intros _; exact Hpend | exact He]. }
  unfold execute. simpl execute_loop. fold s1. rewrite He.
  destruct (advance s1) as [s2 |] eqn:Hadv.
  - destruct (advance_frame _ _ Hadv) as (Hpd & _).
    unfold pending_delay in Hpd |- *. rewrite Hd in Hpd.
    split.
    + intros Hne. destruct (Z.eqb_spec d 0) as [E | _]; [contradiction |].
      destruct (delay s2) as [d2 |]; [| discriminate].
      destruct (Z.eqb d2 0); [discriminate |]. inversion Hpd. reflexivity.
    + intros ->. simpl in Hpd.
      destruct (delay s2) as [d2 |]; [| reflexivity].
      destruct (Z.eqb d2 0); [reflexivity | discriminate].
  - eexists. split; [reflexivity |]. unfold_methods. simpl. rewrite Hon. auto.
Qed.

(** A pause of 5 ms on line 10 of a program with the lines 10 and 20. *)
Lemma pause_takes_effect_witness :
  let s := with_lineno 10 (with_program
             [mkNode 10 (Do (CPause 5) Ret); mkNode 20 Ret] (new_Basic ∅)) in
  execute 1 s
  = (Scheduled 5, with_delay None (with_lineno 20 (step (with_halted false s)))).
Proof.
  intros s.
  refine (proj1 (proj2 (pause_takes_effect 0 s 5 eq_refl eq_refl eq_refl)) _).
  discriminate.
Defined.
